(** * Weak references of the Kotlin/Native runtime (mm/cpp/Weak.cpp)

    A shallow embedding of [mm::createRegularWeakReferenceImpl],
    [mm::disposeRegularWeakReferenceImpl], [mm::derefRegularWeakReferenceImpl]
    and [mm::regularWeakReferenceImplBaseObjectUnsafe], together with the
    collaborators they call, and the properties of the weak-reference life
    cycle proved about them.

    The managed heap and the per-object side table are finite maps from
    addresses; every operation is a computation in a small monad that
    threads the runtime state, can abort the process (a failed runtime
    assertion) or be undefined (a pointer used for something it is not), and
    records the accesses it makes to the [referred] field of weak-reference
    objects. Calls of [createRegularWeakReferenceImpl] that run at the same
    time on several threads are a transition system whose steps are the calls
    the function makes, interleaved with the other operations; on top of it
    the collector reclaims objects, which gives "live" its meaning. *)

From stdpp Require Import base option numbers list gmap sets.

#[local] Set Warnings "-clear-no-such-hyp".

(** ** Data model *)

(** [ObjHeader*], [void*]: an address, [nullptr] being address zero. *)
Abbreviation ptr := N (only parsing).
Definition nullptr : ptr := 0%N.

(** Modelled from the spec: the object model's opaque identity header
    ([ObjHeader], declared in a header that is not part of the sources).
    It tells the weak-reference class from every other class. *)
Inductive TypeInfo : Type :=
| theRegularWeakReferenceImplTypeInfo
| otherTypeInfo (id : N).

Record ObjHeader : Type := mkObjHeader { typeInfo : TypeInfo }.

(** [struct RegularWeakReferenceImpl { ObjHeader header; void* referred; }] *)
Record RegularWeakReferenceImpl : Type := mkRegularWeakReferenceImpl {
  header : ObjHeader;
  referred : ptr
}.

(** What lives at an address of the managed heap: an instance of the
    weak-reference class, laid out as [RegularWeakReferenceImpl], or an
    object of any other class, of which only the header matters here. *)
Inductive HeapObject : Type :=
| OrdinaryObject (h : ObjHeader)
| WeakReferenceObject (w : RegularWeakReferenceImpl).

(** Modelled from the spec: [mm::ExtraObjectData], the lazily installed
    per-object side-table entry; it caches at most one weak-reference handle
    ([nullptr] when there is none). *)
Record ExtraObjectData : Type := mkExtraObjectData {
  regularWeakReferenceImpl : ptr
}.

(** Modelled from the spec: the thread-state flag of ThreadState.hpp. Only
    [kRunnable] is named by the source; [kNative] stands for a thread that is
    not in the runnable mutator state. *)
Inductive ThreadState : Type := kRunnable | kNative.

Global Instance ThreadState_eq_dec : EqDecision ThreadState.
Proof. solve_decision. Defined.

Record ThreadData : Type := mkThreadData { state : ThreadState }.

Abbreviation ThreadId := nat (only parsing).

(** The runtime state the four operations work on. *)
Record Runtime : Type := mkRuntime {
  heap : gmap N HeapObject;
  extraObjects : gmap N ExtraObjectData;
  threadRegistry : gmap nat ThreadData
}.

(** An access to the [referred] field of the weak-reference object at
    address [weakRef]. *)
Inductive Access : Type :=
| AtomicLoad (weakRef : ptr)
| PlainLoad (weakRef : ptr)
| PlainStore (weakRef : ptr) (value : ptr).

Global Instance Access_eq_dec : EqDecision Access.
Proof. solve_decision. Defined.

(** ** The monad of runtime operations *)

Inductive Outcome (A : Type) : Type :=
| Returns (a : A) (σ : Runtime) (log : list Access)
| Aborted
| Undefined.
Arguments Returns {A} a σ log.
Arguments Aborted {A}.
Arguments Undefined {A}.

Definition Op (A : Type) : Type := Runtime → Outcome A.

Global Instance Op_ret : MRet Op := λ A a σ, Returns a σ [].

Global Instance Op_bind : MBind Op := λ A B k m σ,
  match m σ with
  | Returns a σ1 log1 =>
      match k a σ1 with
      | Returns b σ2 log2 => Returns b σ2 (log1 ++ log2)
      | Aborted => Aborted
      | Undefined => Undefined
      end
  | Aborted => Aborted
  | Undefined => Undefined
  end.

(** [RETURN_OBJ(value)]: store the value in the result slot and return it. *)
Abbreviation RETURN_OBJ := mret (only parsing).

(** ** Collaborators of Weak.cpp *)

(** Modelled from the spec: [mm::ThreadRegistry::Instance().CurrentThreadData()],
    the registry entry of the calling thread [self]. *)
Definition CurrentThreadData (self : ThreadId) : Op ThreadData := λ σ,
  match threadRegistry σ !! self with
  | Some thread => Returns thread σ []
  | None => Undefined
  end.

(** Modelled from the spec: [AssertThreadState], a fatal precondition check;
    the process is terminated when the thread is not in the expected state. *)
Definition AssertThreadState (thread : ThreadData) (expected : ThreadState) : Op unit := λ σ,
  if decide (state thread = expected) then Returns () σ [] else Aborted.

Module ExtraObjectDataOps.

(** Modelled from the spec: [mm::ExtraObjectData::GetOrInstall(object)]
    returns the side-table entry of [object], attaching an empty one on
    first use. The entry is named by the address of its owner. *)
Definition GetOrInstall (object : ptr) : Op ptr := λ σ,
  match heap σ !! object with
  | None => Undefined
  | Some _ =>
      match extraObjects σ !! object with
      | Some _ => Returns object σ []
      | None =>
          Returns object
            (mkRuntime (heap σ)
               (<[object := mkExtraObjectData nullptr]> (extraObjects σ))
               (threadRegistry σ)) []
      end
  end.

(** Modelled from the spec: [GetRegularWeakReferenceImpl()], a
    non-allocating read of the cached handle. *)
Definition GetRegularWeakReferenceImpl (extraObject : ptr) : Op ptr := λ σ,
  match extraObjects σ !! extraObject with
  | Some data => Returns (regularWeakReferenceImpl data) σ []
  | None => Undefined
  end.

(** Modelled from the spec: [GetOrSetRegularWeakReferenceImpl(object, candidate)],
    one atomic compare-and-set on the cached handle: the first writer wins,
    a later candidate is dropped and the installed handle is returned. *)
Definition GetOrSetRegularWeakReferenceImpl
    (extraObject : ptr) (object : ptr) (weakRef : ptr) : Op ptr := λ σ,
  match extraObjects σ !! extraObject with
  | Some data =>
      if decide (regularWeakReferenceImpl data = nullptr)
      then Returns weakRef
             (mkRuntime (heap σ)
                (<[extraObject := mkExtraObjectData weakRef]> (extraObjects σ))
                (threadRegistry σ)) []
      else Returns (regularWeakReferenceImpl data) σ []
  | None => Undefined
  end.

End ExtraObjectDataOps.
Import ExtraObjectDataOps.

(** Modelled from the spec: [mm::ReadHeapRefAtomic(location)], an atomic
    load of the object reference stored at [location]. A location is the
    [referred] field of the weak-reference object whose address it carries. *)
Definition ReadHeapRefAtomic (location : ptr) : Op ptr := λ σ,
  match heap σ !! location with
  | Some (WeakReferenceObject w) => Returns (referred w) σ [AtomicLoad location]
  | _ => Undefined
  end.

(** ** Weak.cpp *)

(** [asRegularWeakReferenceImpl], lines 26-28: the object at [weakRef] seen
    as a [RegularWeakReferenceImpl]; the cast has a meaning only when a
    weak-reference object lives there. *)
Definition asRegularWeakReferenceImpl (σ : Runtime) (weakRef : ptr)
    : option RegularWeakReferenceImpl :=
  match heap σ !! weakRef with
  | Some (WeakReferenceObject w) => Some w
  | _ => None
  end.

(** [mm::disposeRegularWeakReferenceImpl], lines 46-48. *)
Definition disposeRegularWeakReferenceImpl (weakRef : ptr) : Op unit := λ σ,
  match asRegularWeakReferenceImpl σ weakRef with
  | Some w =>
      Returns ()
        (mkRuntime
           (<[weakRef := WeakReferenceObject (mkRegularWeakReferenceImpl (header w) nullptr)]>
              (heap σ))
           (extraObjects σ) (threadRegistry σ))
        [PlainStore weakRef nullptr]
  | None => Undefined
  end.

(** [mm::derefRegularWeakReferenceImpl], lines 50-53. *)
Definition derefRegularWeakReferenceImpl (weakRef : ptr) : Op ptr :=
  let location := weakRef in
  ReadHeapRefAtomic location.

(** [mm::regularWeakReferenceImplBaseObjectUnsafe], lines 55-57. *)
Definition regularWeakReferenceImplBaseObjectUnsafe (weakRef : ptr) : Op ptr := λ σ,
  match asRegularWeakReferenceImpl σ weakRef with
  | Some w => Returns (referred w) σ [PlainLoad weakRef]
  | None => Undefined
  end.

Section WithAllocator.

(** The allocator, an external collaborator: the address it hands out for
    the next object, given the runtime state. *)
Variable allocate : Runtime → ptr.

(** Modelled from the spec: [makeRegularWeakReferenceImpl(object, slot)],
    the constructor of the weak-reference class, defined outside Weak.cpp:
    it allocates a new instance whose [referred] field is [object]. *)
Definition makeRegularWeakReferenceImpl (object : ptr) : Op ptr := λ σ,
  let weakRef := allocate σ in
  Returns weakRef
    (mkRuntime
       (<[weakRef := WeakReferenceObject
                       (mkRegularWeakReferenceImpl
                          (mkObjHeader theRegularWeakReferenceImplTypeInfo) object)]>
          (heap σ))
       (extraObjects σ) (threadRegistry σ))
    [PlainStore weakRef object].

(** [mm::createRegularWeakReferenceImpl], lines 32-44. *)
Definition createRegularWeakReferenceImpl (self : ThreadId) (object : ptr) : Op ptr :=
  thread ← CurrentThreadData self;
  AssertThreadState thread kRunnable;;
  extraObject ← GetOrInstall object;
  weakRef ← GetRegularWeakReferenceImpl extraObject;
  if decide (weakRef ≠ nullptr) then RETURN_OBJ weakRef
  else
    weakRef ← makeRegularWeakReferenceImpl object;
    setWeakRef ← GetOrSetRegularWeakReferenceImpl extraObject object weakRef;
    RETURN_OBJ setWeakRef.

(** ** Calls of [createRegularWeakReferenceImpl] running on several threads

    The body of [createRegularWeakReferenceImpl] is a sequence of calls, each
    of them one atomic action on the shared runtime state; between two of
    them any other thread may run. A thread inside the function is at one of
    the following points, with the values of its local variables. *)
Inductive CreatePoint : Type :=
| atEntry (object : ptr)
| atGetOrInstall (object : ptr)
| atGetRegularWeakReferenceImpl (object extraObject : ptr)
| atMake (object extraObject : ptr)
| atGetOrSet (object extraObject weakRef : ptr)
| atReturn (object result : ptr).

(** The next action of thread [self] at a point of the function, lines
    33-34, 36, 37, 41 and 42-43 in turn. *)
Definition createStep (self : ThreadId) (point : CreatePoint) : Op CreatePoint :=
  match point with
  | atEntry object =>
      thread ← CurrentThreadData self;
      AssertThreadState thread kRunnable;;
      mret (atGetOrInstall object)
  | atGetOrInstall object =>
      extraObject ← GetOrInstall object;
      mret (atGetRegularWeakReferenceImpl object extraObject)
  | atGetRegularWeakReferenceImpl object extraObject =>
      weakRef ← GetRegularWeakReferenceImpl extraObject;
      mret (if decide (weakRef ≠ nullptr) then atReturn object weakRef
            else atMake object extraObject)
  | atMake object extraObject =>
      weakRef ← makeRegularWeakReferenceImpl object;
      mret (atGetOrSet object extraObject weakRef)
  | atGetOrSet object extraObject weakRef =>
      setWeakRef ← GetOrSetRegularWeakReferenceImpl extraObject object weakRef;
      mret (atReturn object setWeakRef)
  | atReturn object result => mret (atReturn object result)
  end.

(** A thread running alone from a point until it returns. *)
Fixpoint createFrom (fuel : nat) (self : ThreadId) (point : CreatePoint) : Op (option ptr) :=
  match point, fuel with
  | atReturn _ result, _ => mret (Some result)
  | _, O => mret None
  | _, S fuel' => next ← createStep self point; createFrom fuel' self next
  end.

(** The whole system: the runtime state, the threads that are inside
    [createRegularWeakReferenceImpl], and the history of the accesses made to
    [referred] fields. *)
Record Config : Type := mkConfig {
  runtime : Runtime;
  running : gmap nat CreatePoint;
  accesses : list Access
}.

Inductive Event : Type :=
| evCall (t : ThreadId) (object : ptr)
| evStep (t : ThreadId)
| evReturn (t : ThreadId) (object weakRef : ptr)
| evDispose (weakRef : ptr)
| evDeref (weakRef result : ptr)
| evBaseObjectUnsafe (weakRef result : ptr)
| evNewObject (h : ObjHeader)
| evThreadState (t : ThreadId) (s : ThreadState).

(** An operation run as one atomic action of the system. *)
Definition perform {A} (c : Config) (m : Op A) (k : A → option (gmap nat CreatePoint))
    : option Config :=
  match m (runtime c) with
  | Returns a σ log =>
      match k a with
      | Some r => Some (mkConfig σ r (accesses c ++ log))
      | None => None
      end
  | Aborted | Undefined => None
  end.

(** Modelled from the spec: the allocator creating an object of a class
    other than the weak-reference class. *)
Definition allocateOrdinaryObject (h : ObjHeader) : Op ptr := λ σ,
  let object := allocate σ in
  Returns object
    (mkRuntime (<[object := OrdinaryObject h]> (heap σ)) (extraObjects σ) (threadRegistry σ))
    [].

(** Modelled from the spec: a thread (one that is not inside
    [createRegularWeakReferenceImpl]) registering or switching its state. *)
Definition switchThreadState (t : ThreadId) (s : ThreadState) : Op unit := λ σ,
  Returns ()
    (mkRuntime (heap σ) (extraObjects σ) (<[t := mkThreadData s]> (threadRegistry σ)))
    [].

(** One step of the system. [evCall], [evStep] and [evReturn] are a thread
    entering [createRegularWeakReferenceImpl], running its next action and
    returning; the other operations of Weak.cpp are a single access each; the
    last two events are the environment. A step that is not possible, is
    undefined or aborts the process has no successor. *)
Definition step (c : Config) (e : Event) : option Config :=
  match e with
  | evCall t object =>
      match running c !! t with
      | None => Some (mkConfig (runtime c) (<[t := atEntry object]> (running c)) (accesses c))
      | Some _ => None
      end
  | evStep t =>
      match running c !! t with
      | Some (atReturn _ _) | None => None
      | Some point => perform c (createStep t point) (λ next, Some (<[t := next]> (running c)))
      end
  | evReturn t object weakRef =>
      match running c !! t with
      | Some (atReturn object' result) =>
          if decide (object' = object ∧ result = weakRef)
          then Some (mkConfig (runtime c) (delete t (running c)) (accesses c))
          else None
      | _ => None
      end
  | evDispose weakRef =>
      perform c (disposeRegularWeakReferenceImpl weakRef) (λ _, Some (running c))
  | evDeref weakRef result =>
      perform c (derefRegularWeakReferenceImpl weakRef)
        (λ r, if decide (r = result) then Some (running c) else None)
  | evBaseObjectUnsafe weakRef result =>
      perform c (regularWeakReferenceImplBaseObjectUnsafe weakRef)
        (λ r, if decide (r = result) then Some (running c) else None)
  | evNewObject h =>
      perform c (allocateOrdinaryObject h) (λ _, Some (running c))
  | evThreadState t s =>
      match running c !! t with
      | None => perform c (switchThreadState t s) (λ _, Some (running c))
      | Some _ => None
      end
  end.

Fixpoint run (c : Config) (trace : list Event) : option Config :=
  match trace with
  | [] => Some c
  | e :: trace' =>
      match step c e with
      | Some c' => run c' trace'
      | None => None
      end
  end.

(** The system before any weak reference exists: ordinary objects only, no
    side-table entry, no thread inside the function. *)
Definition initialConfig (objects : gmap N ObjHeader) (threads : gmap nat ThreadData) : Config :=
  mkConfig
    (mkRuntime (OrdinaryObject <$> delete nullptr objects) ∅ threads)
    ∅ [].

End WithAllocator.

Global Instance TypeInfo_eq_dec : EqDecision TypeInfo.
Proof. solve_decision. Defined.

Global Instance ObjHeader_eq_dec : EqDecision ObjHeader.
Proof. solve_decision. Defined.

Global Instance Event_eq_dec : EqDecision Event.
Proof. solve_decision. Defined.

(** ** Histories *)

(** The stores made to the [referred] field of the object at [weakRef], in
    the order they were made. *)
Definition isStoreTo (weakRef : ptr) (x : Access) : bool :=
  match x with
  | PlainStore weakRef' _ => bool_decide (weakRef' = weakRef)
  | AtomicLoad _ | PlainLoad _ => false
  end.

Definition storesTo (weakRef : ptr) (log : list Access) : list Access :=
  filter (λ x, isStoreTo weakRef x) log.

(** How many times the handle was disposed in a trace. *)
Definition disposals (weakRef : ptr) (trace : list Event) : nat :=
  length (filter (λ e, e = evDispose weakRef) trace).

(** The handle at [weakRef] was made for [object]: the first store to its
    [referred] field, the one of its constructor, stored [object]. *)
Definition createdFor (log : list Access) (weakRef object : ptr) : Prop :=
  head (storesTo weakRef log) = Some (PlainStore weakRef object).

(** What a thread inside [createRegularWeakReferenceImpl] knows at each
    point. *)
Definition pointOk (extra : gmap N ExtraObjectData) (log : list Access)
    (point : CreatePoint) : Prop :=
  match point with
  | atEntry _ | atGetOrInstall _ => True
  | atGetRegularWeakReferenceImpl object extraObject | atMake object extraObject =>
      extraObject = object ∧ is_Some (extra !! object)
  | atGetOrSet object extraObject weakRef =>
      extraObject = object ∧ is_Some (extra !! object)
      ∧ weakRef ≠ nullptr ∧ createdFor log weakRef object
  | atReturn object result =>
      result ≠ nullptr ∧ extra !! object = Some (mkExtraObjectData result)
  end.

(** The invariant of the system, for the trace that led to a configuration,
    in three parts. The heap: nothing lives at [nullptr], and side-table
    entries belong to objects. *)
Definition HeapOk (hp : gmap N HeapObject) (extra : gmap N ExtraObjectData) : Prop :=
  hp !! nullptr = None ∧ ∀ o d, extra !! o = Some d → is_Some (hp !! o).

(** The histories: the [referred] field of a weak-reference object was stored
    to by its constructor, with an object other than itself, and then once by
    each disposal, with [nullptr]; it holds what was stored last. Nothing
    else was ever stored to or disposed. *)
Definition HistoryOk (trace : list Event) (hp : gmap N HeapObject) (log : list Access) : Prop :=
  ∀ a,
    match hp !! a with
    | Some (WeakReferenceObject w) =>
        ∃ o, o ≠ nullptr ∧ o ≠ a ∧ is_Some (hp !! o)
             ∧ storesTo a log
               = PlainStore a o :: replicate (disposals a trace) (PlainStore a nullptr)
             ∧ referred w = (if decide (disposals a trace = 0) then o else nullptr)
    | _ => storesTo a log = [] ∧ disposals a trace = 0
    end.

(** The side table: a cached handle was made for the owner of the entry;
    every thread inside the function knows what its point says; and every
    handle the function has returned for an object is the cached one. *)
Definition TableOk (trace : list Event) (extra : gmap N ExtraObjectData)
    (r : gmap nat CreatePoint) (log : list Access) : Prop :=
  (∀ o d, extra !! o = Some d → regularWeakReferenceImpl d ≠ nullptr →
          createdFor log (regularWeakReferenceImpl d) o)
  ∧ (∀ t point, r !! t = Some point → pointOk extra log point)
  ∧ (∀ t o h, evReturn t o h ∈ trace →
              h ≠ nullptr ∧ extra !! o = Some (mkExtraObjectData h)).

Record Consistent (trace : list Event) (c : Config) : Prop := mkConsistent {
  heap_ok : HeapOk (heap (runtime c)) (extraObjects (runtime c));
  history_ok : HistoryOk trace (heap (runtime c)) (accesses c);
  table_ok : TableOk trace (extraObjects (runtime c)) (running c) (accesses c)
}.

(** The side table only grows: an entry stays, and a cached handle stays
    the same. *)
Definition extraGrows (extra extra' : gmap N ExtraObjectData) : Prop :=
  ∀ o d, extra !! o = Some d →
    ∃ d', extra' !! o = Some d' ∧ (regularWeakReferenceImpl d ≠ nullptr → d' = d).

(** The object a thread inside the function was called with. *)
Definition pointObject (point : CreatePoint) : ptr :=
  match point with
  | atEntry object | atGetOrInstall object
  | atGetRegularWeakReferenceImpl object _ | atMake object _
  | atGetOrSet object _ _ | atReturn object _ => object
  end.

(** The handle at [weakRef] is cleared. *)
Definition cleared (σ : Runtime) (weakRef : ptr) : Prop :=
  ∃ w, heap σ !! weakRef = Some (WeakReferenceObject w) ∧ referred w = nullptr.

(** The stores to a [referred] field as a life of exactly two writes would
    have them: one of a target that is not [nullptr], followed by at most one
    of [nullptr]. *)
Definition storedOnceThenClearedAtMostOnce (log : list Access) (weakRef : ptr) : Prop :=
  ∃ target, target ≠ nullptr
    ∧ (storesTo weakRef log = [PlainStore weakRef target]
       ∨ storesTo weakRef log = [PlainStore weakRef target; PlainStore weakRef nullptr]).

(** What may become of an object of the heap: an ordinary object stays as
    it is; a weak-reference object keeps its header, and its [referred] field
    is what it was or [nullptr]. *)
Definition objectKept (x x' : HeapObject) : Prop :=
  match x with
  | OrdinaryObject _ => x' = x
  | WeakReferenceObject w =>
      ∃ w', x' = WeakReferenceObject w' ∧ header w' = header w
            ∧ (referred w' = referred w ∨ referred w' = nullptr)
  end.

Definition heapPersists (hp hp' : gmap N HeapObject) : Prop :=
  ∀ a x, hp !! a = Some x → ∃ x', hp' !! a = Some x' ∧ objectKept x x'.

(** ** The collector

    Modelled from the spec: the collector, an external collaborator that
    reclaims objects. Before it reclaims an object it has disposed every
    handle made for the object (or reclaimed the handle itself), and it
    reclaims no object that a thread holds as the argument of a running
    [createRegularWeakReferenceImpl]; threads and collector pass live objects
    only. A reclaimed object is no longer live; its address is not handed
    out again. *)
Inductive CollectorEvent : Type :=
| evSystem (e : Event)
| evReclaim (object : ptr).

Record Collected : Type := mkCollected {
  system : Config;
  history : list Event;
  reclaimed : gset N
}.

Definition live (g : Collected) (object : ptr) : Prop :=
  is_Some (heap (runtime (system g)) !! object) ∧ object ∉ reclaimed g.

(** The handles whose constructor stored [object] in their [referred]
    field. *)
Definition handlesMadeFor (object : ptr) (log : list Access) : list ptr :=
  omap (λ x, match x with
             | PlainStore h value => if decide (value = object) then Some h else None
             | AtomicLoad _ | PlainLoad _ => None
             end) log.

Definition liveArguments (dead : gset N) (e : Event) : Prop :=
  match e with
  | evCall _ object => object ∉ dead
  | evDispose weakRef | evDeref weakRef _ | evBaseObjectUnsafe weakRef _ => weakRef ∉ dead
  | evStep _ | evReturn _ _ _ | evNewObject _ | evThreadState _ _ => True
  end.

Global Instance liveArguments_dec (dead : gset N) (e : Event) :
  Decision (liveArguments dead e).
Proof. destruct e; simpl; apply _. Defined.

Definition mayReclaim (g : Collected) (object : ptr) : Prop :=
  live g object
  ∧ map_Forall (λ _ point, pointObject point ≠ object) (running (system g))
  ∧ Forall (λ h, h ∈ reclaimed g ∨ evDispose h ∈ history g)
      (handlesMadeFor object (accesses (system g))).

Global Instance mayReclaim_dec (g : Collected) (object : ptr) :
  Decision (mayReclaim g object).
Proof. unfold mayReclaim, live. apply _. Defined.

Section WithCollector.

Variable allocate : Runtime → ptr.

Definition stepCollected (g : Collected) (ce : CollectorEvent) : option Collected :=
  match ce with
  | evSystem e =>
      if decide (liveArguments (reclaimed g) e)
      then match step allocate (system g) e with
           | Some c' => Some (mkCollected c' (history g ++ [e]) (reclaimed g))
           | None => None
           end
      else None
  | evReclaim object =>
      if decide (mayReclaim g object)
      then Some (mkCollected (system g) (history g) ({[object]} ∪ reclaimed g))
      else None
  end.

Fixpoint runCollected (g : Collected) (trace : list CollectorEvent) : option Collected :=
  match trace with
  | [] => Some g
  | ce :: trace' =>
      match stepCollected g ce with
      | Some g' => runCollected g' trace'
      | None => None
      end
  end.

End WithCollector.

Definition initialCollected (objects : gmap N ObjHeader) (threads : gmap nat ThreadData)
    : Collected :=
  mkCollected (initialConfig objects threads) [] ∅.

(** The invariant of the collected system: what was reclaimed was an object
    of the heap; no thread is inside the function for a reclaimed object; and
    a handle made for a reclaimed object was reclaimed or disposed. *)
Definition CollectedOk (g : Collected) : Prop :=
  (∀ o, o ∈ reclaimed g → is_Some (heap (runtime (system g)) !! o))
  ∧ (∀ t point, running (system g) !! t = Some point → pointObject point ∉ reclaimed g)
  ∧ (∀ h o, PlainStore h o ∈ accesses (system g) → o ∈ reclaimed g →
            h ∈ reclaimed g ∨ evDispose h ∈ history g).

(** An allocator: the address after the largest one in use. *)
Definition bumpAllocate (σ : Runtime) : ptr :=
  N.succ (map_fold (λ a _ m, N.max a m) 0%N (heap σ)).

(** A small system used to exercise the statements below: two ordinary
    objects at addresses 5 and 7, two runnable threads and one that is not. *)
Definition demoObjects : gmap N ObjHeader :=
  {[ 5%N := mkObjHeader (otherTypeInfo 1); 7%N := mkObjHeader (otherTypeInfo 2) ]}.

Definition demoThreads : gmap nat ThreadData :=
  {[ 1 := mkThreadData kRunnable; 2 := mkThreadData kRunnable; 3 := mkThreadData kNative ]}.

Definition demoConfig : Config := initialConfig demoObjects demoThreads.

(** The demo system after a trace. *)
Definition demoAfter (trace : list Event) : Config :=
  default demoConfig (run bumpAllocate demoConfig trace).

(** Thread 1 creates the weak reference of object 5 and gets the handle at
    address 8. *)
Definition demoCreate : list Event :=
  [evCall 1 5%N; evStep 1; evStep 1; evStep 1; evStep 1; evStep 1; evReturn 1 5%N 8%N].

Definition demoCreated : Runtime := runtime (demoAfter demoCreate).

Definition demoDisposed : Runtime :=
  mkRuntime
    (<[8%N := WeakReferenceObject
                (mkRegularWeakReferenceImpl
                   (mkObjHeader theRegularWeakReferenceImplTypeInfo) nullptr)]>
       (heap demoCreated))
    (extraObjects demoCreated) (threadRegistry demoCreated).

(** Threads 1 and 2 create the weak reference of object 5 at the same time:
    both find the side table empty, thread 2 publishes its candidate (at
    address 8) first, thread 1 drops its own (at address 9). *)
Definition demoRace : list Event :=
  [evCall 1 5%N; evStep 1; evStep 1; evStep 1;
   evCall 2 5%N; evStep 2; evStep 2; evStep 2; evStep 2; evStep 2;
   evStep 1; evStep 1; evReturn 1 5%N 8%N; evReturn 2 5%N 8%N].

(** After the creation the handle is dereferenced, disposed twice, and
    thread 2 asks for the weak reference of object 5 again. *)
Definition demoDisposeTwice : list Event :=
  demoCreate ++ [evDeref 8%N 5%N; evDispose 8%N; evDispose 8%N].

Definition demoAfterDispose : list Event :=
  [evCall 2 5%N; evStep 2; evStep 2; evStep 2; evReturn 2 5%N 8%N;
   evNewObject (mkObjHeader (otherTypeInfo 3)); evDeref 8%N nullptr].

(** After the creation for object 5, thread 2 creates the weak reference of
    object 7 and gets the handle at address 9. *)
Definition demoCreateTwo : list Event :=
  demoCreate
  ++ [evCall 2 7%N; evStep 2; evStep 2; evStep 2; evStep 2; evStep 2; evReturn 2 7%N 9%N].

(** Thread 1 has found the side table of object 5 empty and is about to
    allocate its candidate. *)
Definition demoBeforeMake : list Event :=
  [evCall 1 5%N; evStep 1; evStep 1; evStep 1].

(** As in [demoRace], thread 2 then runs its whole slow path and publishes
    the handle at address 8; thread 1 is still about to allocate. *)
Definition demoLostRace : list Event :=
  demoBeforeMake ++ [evCall 2 5%N; evStep 2; evStep 2; evStep 2; evStep 2; evStep 2].

(** The demo system with the collector: after the race of [demoRace] the
    handle at address 8 is dereferenced; the collector reclaims the dropped
    candidate at address 9, disposes the handle at address 8 and reclaims
    object 5. *)
Definition demoCollection : list CollectorEvent :=
  (evSystem <$> demoRace)
  ++ [evSystem (evDeref 8%N 5%N); evReclaim 9%N; evSystem (evDispose 8%N); evReclaim 5%N].

Definition demoCollected : Collected :=
  default (initialCollected demoObjects demoThreads)
    (runCollected bumpAllocate (initialCollected demoObjects demoThreads) demoCollection).

(** The same system before the collector does anything. *)
Definition demoUncollected : Collected :=
  default (initialCollected demoObjects demoThreads)
    (runCollected bumpAllocate (initialCollected demoObjects demoThreads)
       (evSystem <$> demoRace)).

(** ** Properties *)

(** Unfolding of the monad and of the collaborators. *)
Ltac unfold_op :=
  unfold createRegularWeakReferenceImpl, createStep,
    disposeRegularWeakReferenceImpl, derefRegularWeakReferenceImpl,
    regularWeakReferenceImplBaseObjectUnsafe, ReadHeapRefAtomic,
    asRegularWeakReferenceImpl, makeRegularWeakReferenceImpl,
    GetOrSetRegularWeakReferenceImpl, GetRegularWeakReferenceImpl, GetOrInstall,
    AssertThreadState, CurrentThreadData, allocateOrdinaryObject, switchThreadState,
    mbind, Op_bind, mret, Op_ret in *.

Lemma bumpAllocate_bound (m : gmap N HeapObject) (a : N) :
  is_Some (m !! a) → (a ≤ map_fold (λ a _ r, N.max a r) 0 m)%N.
Proof.
  revert a.
  apply (map_fold_weak_ind (λ r (m : gmap N HeapObject), ∀ a, is_Some (m !! a) → (a ≤ r)%N)).
  - intros a [x Hx]. by rewrite lookup_empty in Hx.
  - intros i x m' r _ IH a Ha.
    destruct (decide (i = a)) as [->|Hne]; [lia|].
    rewrite lookup_insert_ne in Ha by done. specialize (IH a Ha). lia.
Qed.

Lemma bumpAllocate_fresh (σ : Runtime) :
  bumpAllocate σ ≠ nullptr ∧ heap σ !! bumpAllocate σ = None.
Proof.
  unfold bumpAllocate, nullptr. split; [lia|].
  destruct (heap σ !! N.succ _) eqn:E; [|done].
  pose proof (bumpAllocate_bound (heap σ) _ (mk_is_Some _ _ E)). lia.
Qed.

(** *** The monad *)

Lemma bind_Returns {A B} (m : Op A) (k : A → Op B) (σ σ' : Runtime) (b : B) (log : list Access) :
  (m ≫= k) σ = Returns b σ' log ↔
  ∃ a σ1 log1 log2,
    m σ = Returns a σ1 log1 ∧ k a σ1 = Returns b σ' log2 ∧ log = log1 ++ log2.
Proof.
  unfold mbind, Op_bind. split.
  - destruct (m σ) as [a σ1 log1| |]; [|done..].
    destruct (k a σ1) as [b' σ2 log2| |] eqn:Hk; [|done..].
    intros [= -> -> <-]. by exists a, σ1, log1, log2.
  - intros (a & σ1 & log1 & log2 & -> & -> & ->). done.
Qed.

Lemma bind_Aborted {A B} (m : Op A) (k : A → Op B) (σ : Runtime) :
  (m ≫= k) σ = Aborted ↔
  m σ = Aborted ∨ ∃ a σ1 log1, m σ = Returns a σ1 log1 ∧ k a σ1 = Aborted.
Proof.
  unfold mbind, Op_bind. split.
  - destruct (m σ) as [a σ1 log1| |]; [|by left|done].
    destruct (k a σ1) eqn:Hk; [done| |done]. intros _. right. by exists a, σ1, log1.
  - intros [->|(a & σ1 & log1 & -> & ->)]; done.
Qed.

(** *** The collaborators, one by one *)

Lemma CurrentThreadData_Returns (self : ThreadId) (σ σ' : Runtime) (thread : ThreadData)
    (log : list Access) :
  CurrentThreadData self σ = Returns thread σ' log ↔
  threadRegistry σ !! self = Some thread ∧ σ' = σ ∧ log = [].
Proof. unfold CurrentThreadData. destruct (threadRegistry σ !! self); naive_solver. Qed.

Lemma GetOrInstall_not_Aborted (object : ptr) (σ : Runtime) :
  GetOrInstall object σ ≠ Aborted.
Proof.
  unfold GetOrInstall. destruct (heap σ !! object); [|done].
  by destruct (extraObjects σ !! object).
Qed.

Lemma GetRegularWeakReferenceImpl_not_Aborted (extraObject : ptr) (σ : Runtime) :
  GetRegularWeakReferenceImpl extraObject σ ≠ Aborted.
Proof. unfold GetRegularWeakReferenceImpl. by destruct (extraObjects σ !! extraObject). Qed.

Lemma GetOrSetRegularWeakReferenceImpl_not_Aborted (extraObject object weakRef : ptr)
    (σ : Runtime) :
  GetOrSetRegularWeakReferenceImpl extraObject object weakRef σ ≠ Aborted.
Proof.
  unfold GetOrSetRegularWeakReferenceImpl.
  destruct (extraObjects σ !! extraObject); [|done]. by case_decide.
Qed.

(** C4. [disposeRegularWeakReferenceImpl] on a handle stores [nullptr] in its
    [referred] field whatever the field held, and disposing the handle again
    leaves the runtime state as the first call left it. *)
Theorem dispose_clears_and_is_idempotent (σ : Runtime) (H : ptr) (w : RegularWeakReferenceImpl) :
  asRegularWeakReferenceImpl σ H = Some w →
  ∃ σ',
    disposeRegularWeakReferenceImpl H σ = Returns () σ' [PlainStore H nullptr]
    ∧ referred <$> asRegularWeakReferenceImpl σ' H = Some nullptr
    ∧ disposeRegularWeakReferenceImpl H σ' = Returns () σ' [PlainStore H nullptr].
Proof.
  intros Hw. unfold disposeRegularWeakReferenceImpl. rewrite Hw.
  eexists. split; [reflexivity|].
  unfold asRegularWeakReferenceImpl; simpl. rewrite lookup_insert_eq; simpl.
  split; [reflexivity|]. by rewrite insert_insert_eq.
Qed.

(** C10. [disposeRegularWeakReferenceImpl] changes nothing but the
    [referred] field of the handle: the header of the handle, every other
    object of the heap (the target among them), the side table with its
    cached handles and the thread registry are as before. *)
Theorem dispose_frame (σ σ' : Runtime) (H : ptr) (log : list Access) :
  disposeRegularWeakReferenceImpl H σ = Returns () σ' log →
  (∃ w w', asRegularWeakReferenceImpl σ H = Some w
           ∧ asRegularWeakReferenceImpl σ' H = Some w'
           ∧ header w' = header w
           ∧ (referred w ≠ H → heap σ' !! referred w = heap σ !! referred w))
  ∧ (∀ a, a ≠ H → heap σ' !! a = heap σ !! a)
  ∧ dom (heap σ') = dom (heap σ)
  ∧ extraObjects σ' = extraObjects σ
  ∧ threadRegistry σ' = threadRegistry σ.
Proof.
  unfold disposeRegularWeakReferenceImpl.
  destruct (asRegularWeakReferenceImpl σ H) as [w|] eqn:Hw; [|done].
  intros [= <- <-]. simpl.
  assert (Hheap : heap σ !! H = Some (WeakReferenceObject w)).
  { unfold asRegularWeakReferenceImpl in Hw.
    destruct (heap σ !! H) as [[|w0]|]; naive_solver. }
  split_and!; try done.
  - exists w, (mkRegularWeakReferenceImpl (header w) nullptr).
    unfold asRegularWeakReferenceImpl; simpl. rewrite lookup_insert_eq.
    split_and!; try done. intros Hne. by rewrite lookup_insert_ne.
  - intros a Hne. by rewrite lookup_insert_ne.
  - rewrite dom_insert_L. apply subseteq_union_1_L, singleton_subseteq_l.
    by apply elem_of_dom_2 in Hheap.
Qed.

Section Sequential.

Variable allocate : Runtime → ptr.

(** C5. A call of [createRegularWeakReferenceImpl] aborts the process exactly
    when the calling thread is not in the runnable state: outside that state
    there is neither a result nor a next state, and in it the assertion never
    fires. *)
Theorem create_aborts_iff_not_runnable
    (σ : Runtime) (self : ThreadId) (thread : ThreadData) (object : ptr) :
  threadRegistry σ !! self = Some thread →
  createRegularWeakReferenceImpl allocate self object σ = Aborted ↔ state thread ≠ kRunnable.
Proof.
  intros Hthread. unfold createRegularWeakReferenceImpl.
  split.
  - intros Habs Hs.
    apply bind_Aborted in Habs as [Habs|(th & σ1 & l1 & Hcur & Habs)].
    { unfold CurrentThreadData in Habs. by rewrite Hthread in Habs. }
    apply CurrentThreadData_Returns in Hcur as (Hth & -> & ->).
    assert (th = thread) as -> by congruence.
    apply bind_Aborted in Habs as [Habs|(u & σ2 & l2 & _ & Habs)].
    { unfold AssertThreadState in Habs. by rewrite decide_True in Habs. }
    apply bind_Aborted in Habs as [Habs|(e & σ3 & l3 & _ & Habs)].
    { by apply GetOrInstall_not_Aborted in Habs. }
    apply bind_Aborted in Habs as [Habs|(h & σ4 & l4 & _ & Habs)].
    { by apply GetRegularWeakReferenceImpl_not_Aborted in Habs. }
    case_decide; [done|].
    apply bind_Aborted in Habs as [Habs|(c & σ5 & l5 & _ & Habs)]; [done|].
    apply bind_Aborted in Habs as [Habs|(r & σ6 & l6 & _ & Habs)]; [|done].
    by apply GetOrSetRegularWeakReferenceImpl_not_Aborted in Habs.
  - intros Hs. unfold mbind, Op_bind, CurrentThreadData, AssertThreadState.
    rewrite Hthread. by rewrite decide_False.
Qed.

(** C6. When the side-table entry of the object already caches a handle,
    [createRegularWeakReferenceImpl] returns that handle and leaves the
    runtime state as it was: nothing is allocated and no [referred] field is
    touched. *)
Theorem create_fast_path
    (σ : Runtime) (self : ThreadId) (thread : ThreadData) (object : ptr)
    (data : ExtraObjectData) :
  threadRegistry σ !! self = Some thread →
  state thread = kRunnable →
  is_Some (heap σ !! object) →
  extraObjects σ !! object = Some data →
  regularWeakReferenceImpl data ≠ nullptr →
  createRegularWeakReferenceImpl allocate self object σ
  = Returns (regularWeakReferenceImpl data) σ [].
Proof.
  intros Hthread Hs [x Hx] Hd Hnn. unfold_op.
  rewrite Hthread. rewrite decide_True by done.
  rewrite Hx, Hd. simpl. rewrite Hd. simpl. by rewrite decide_True.
Qed.

(** The threads' view of the function agrees with the function: a thread
    that runs alone from the entry returns what
    [createRegularWeakReferenceImpl] returns, in the same state and after the
    same accesses. *)
Lemma createFrom_entry (σ : Runtime) (self : ThreadId) (object : ptr) :
  createFrom allocate 5 self (atEntry object) σ
  = (result ← createRegularWeakReferenceImpl allocate self object; mret (Some result)) σ.
Proof.
  unfold createFrom. unfold_op.
  destruct (threadRegistry σ !! self) as [thread|]; [|done].
  case_decide; [|done].
  destruct (heap σ !! object); [|done].
  destruct (extraObjects σ !! object) as [d|] eqn:Hd; simpl.
  - rewrite Hd. simpl. case_decide; simpl; [done|].
    rewrite Hd. case_decide; simpl; [done|]. done.
  - pose proof (lookup_insert_eq (extraObjects σ) object (mkExtraObjectData nullptr)) as Hl.
    set (extra' := <[object := mkExtraObjectData nullptr]> (extraObjects σ)) in *.
    rewrite Hl. simpl. rewrite Hl. done.
Qed.

(** What a call that returns leaves behind: the handle it returns is the one
    cached for the object, and it is a cached handle that was not [nullptr]
    or an address handed out by the allocator. *)
Lemma create_result (σ σ' : Runtime) (self : ThreadId) (object result : ptr)
    (log : list Access) :
  createRegularWeakReferenceImpl allocate self object σ = Returns result σ' log →
  extraObjects σ' !! object = Some (mkExtraObjectData result)
  ∧ is_Some (heap σ' !! object)
  ∧ threadRegistry σ' = threadRegistry σ
  ∧ (result ≠ nullptr ∨ ∃ σ0, result = allocate σ0).
Proof.
  unfold_op.
  destruct (threadRegistry σ !! self) as [thread|]; [|done].
  case_decide; [|done].
  destruct (heap σ !! object) as [x|] eqn:Hx; [|done].
  assert (Hkeep : ∀ a y, is_Some (<[a := y]> (heap σ) !! object)).
  { intros a y. destruct (decide (a = object)) as [->|?].
    - rewrite lookup_insert_eq. eauto.
    - rewrite lookup_insert_ne by done. eauto. }
  destruct (extraObjects σ !! object) as [d|] eqn:Hd.
  - cbn [extraObjects heap threadRegistry]. rewrite Hd.
    destruct (decide (regularWeakReferenceImpl d ≠ nullptr)) as [Hnn|Hnull].
    + intros [= <- <- <-]. rewrite Hx, Hd. split_and!; eauto. by destruct d.
    + cbn [extraObjects heap threadRegistry]. rewrite Hd.
      destruct (decide (regularWeakReferenceImpl d = nullptr)); [|done].
      intros [= <- <- <-]. cbn [extraObjects heap threadRegistry].
      rewrite lookup_insert_eq. split_and!; eauto.
  - pose proof (lookup_insert_eq (extraObjects σ) object (mkExtraObjectData nullptr)) as Hl.
    set (extra' := <[object := mkExtraObjectData nullptr]> (extraObjects σ)) in *.
    cbn [extraObjects heap threadRegistry]. rewrite Hl.
    cbn [regularWeakReferenceImpl]. rewrite decide_False by (intros Hne; by apply Hne).
    cbn [extraObjects heap threadRegistry]. rewrite Hl.
    cbn [regularWeakReferenceImpl]. rewrite decide_True by done.
    intros [= <- <- <-]. cbn [extraObjects heap threadRegistry].
    rewrite lookup_insert_eq. split_and!; eauto.
Qed.

(** C7. Lines 41-43. The slow path allocates a candidate whose [referred]
    field is the object and leaves the side table alone; then, in whatever
    state the thread finds the side table when it publishes, the handle it
    returns is the one cached afterwards: the candidate when no handle was
    cached, and otherwise the cached one, with the runtime state unchanged
    (the candidate is dropped, which is no error). And whenever
    [createRegularWeakReferenceImpl] returns, what it returns is the handle
    cached for the object. *)
Theorem create_slow_path_first_writer_wins
    (σ σ2 : Runtime) (self : ThreadId) (object extraObject : ptr) (data : ExtraObjectData) :
  extraObjects σ2 !! extraObject = Some data →
  let weakRef := allocate σ in
  (∃ σ1,
     createStep allocate self (atMake object extraObject) σ
     = Returns (atGetOrSet object extraObject weakRef) σ1 [PlainStore weakRef object]
     ∧ referred <$> asRegularWeakReferenceImpl σ1 weakRef = Some object
     ∧ extraObjects σ1 = extraObjects σ)
  ∧ (∃ setWeakRef σ3,
       createStep allocate self (atGetOrSet object extraObject weakRef) σ2
       = Returns (atReturn object setWeakRef) σ3 []
       ∧ createFrom allocate 1 self (atGetOrSet object extraObject weakRef) σ2
         = Returns (Some setWeakRef) σ3 []
       ∧ extraObjects σ3 !! extraObject = Some (mkExtraObjectData setWeakRef)
       ∧ heap σ3 = heap σ2
       ∧ (regularWeakReferenceImpl data = nullptr → setWeakRef = weakRef)
       ∧ (regularWeakReferenceImpl data ≠ nullptr →
          setWeakRef = regularWeakReferenceImpl data ∧ σ3 = σ2))
  ∧ (∀ σ0 σ' result log,
       createRegularWeakReferenceImpl allocate self object σ0 = Returns result σ' log →
       extraObjects σ' !! object = Some (mkExtraObjectData result)).
Proof.
  intros Hdata weakRef. split_and!.
  - eexists. split; [reflexivity|]. unfold asRegularWeakReferenceImpl. simpl.
    by rewrite lookup_insert_eq.
  - unfold createFrom. unfold_op. rewrite Hdata.
    destruct (decide (regularWeakReferenceImpl data = nullptr)) as [Hempty|Hfull]; simpl.
    + exists weakRef,
        (mkRuntime (heap σ2)
           (<[extraObject := mkExtraObjectData weakRef]> (extraObjects σ2))
           (threadRegistry σ2)).
      split_and!; try done. apply lookup_insert_eq.
    + exists (regularWeakReferenceImpl data), σ2.
      split_and!; try done. rewrite Hdata. by destruct data.
  - intros σ0 σ' result log Hcreate. by apply create_result in Hcreate as [? _].
Qed.

End Sequential.

(** *** Histories *)

Lemma storesTo_app (a : ptr) (l l' : list Access) :
  storesTo a (l ++ l') = storesTo a l ++ storesTo a l'.
Proof. apply filter_app. Qed.

Lemma storesTo_store (a a' v : ptr) :
  storesTo a [PlainStore a' v] = if decide (a' = a) then [PlainStore a' v] else [].
Proof.
  unfold storesTo. rewrite filter_cons, filter_nil. simpl.
  destruct (decide (a' = a)) as [->|Hne].
  - rewrite bool_decide_eq_true_2 by done. reflexivity.
  - rewrite bool_decide_eq_false_2 by done. reflexivity.
Qed.

Lemma disposals_snoc (a : ptr) (trace : list Event) (e : Event) :
  disposals a (trace ++ [e])
  = disposals a trace + (if decide (e = evDispose a) then 1 else 0).
Proof.
  unfold disposals. rewrite filter_app, length_app, filter_cons, filter_nil.
  by case_decide.
Qed.

Lemma disposals_absent (a : ptr) (trace : list Event) :
  evDispose a ∉ trace → disposals a trace = 0.
Proof.
  unfold disposals. induction trace as [|e trace IH]; [done|].
  intros Hnot. apply not_elem_of_cons in Hnot as [Hne Hnot].
  rewrite filter_cons_False by congruence. by apply IH.
Qed.

Lemma createdFor_app (l l' : list Access) (h o : ptr) :
  createdFor l h o → createdFor (l ++ l') h o.
Proof.
  unfold createdFor. rewrite storesTo_app.
  by destruct (storesTo h l).
Qed.

(** *** The parts of the invariant, step by step *)

Lemma extraGrows_refl (extra : gmap N ExtraObjectData) : extraGrows extra extra.
Proof. intros o d Hd. eauto. Qed.

Lemma pointOk_stable (extra extra' : gmap N ExtraObjectData) (log log' : list Access)
    (point : CreatePoint) :
  extraGrows extra extra' → pointOk extra log point → pointOk extra' (log ++ log') point.
Proof.
  intros Hg. destruct point as [o|o|o e|o e|o e w|o res]; simpl; try done.
  - intros [-> [d Hd]]. split; [done|]. destruct (Hg _ _ Hd) as (d' & Hd' & _). eauto.
  - intros [-> [d Hd]]. split; [done|]. destruct (Hg _ _ Hd) as (d' & Hd' & _). eauto.
  - intros (-> & [d Hd] & Hw & Hc). split_and!; try done.
    + destruct (Hg _ _ Hd) as (d' & Hd' & _). eauto.
    + by apply createdFor_app.
  - intros [Hres Hd]. split; [done|].
    destruct (Hg _ _ Hd) as (d' & Hd' & Heq). rewrite Hd'. f_equal. by apply Heq.
Qed.

Lemma TableOk_transfer (trace : list Event) (e : Event)
    (extra extra' : gmap N ExtraObjectData) (r r' : gmap nat CreatePoint)
    (log log' : list Access) :
  TableOk trace extra r log →
  extraGrows extra extra' →
  (∀ o d, extra' !! o = Some d → regularWeakReferenceImpl d ≠ nullptr →
          extra !! o = Some d ∨ createdFor (log ++ log') (regularWeakReferenceImpl d) o) →
  (∀ t point, r' !! t = Some point →
              r !! t = Some point ∨ pointOk extra' (log ++ log') point) →
  (∀ t o h, e = evReturn t o h →
            h ≠ nullptr ∧ extra' !! o = Some (mkExtraObjectData h)) →
  TableOk (trace ++ [e]) extra' r' (log ++ log').
Proof.
  intros (Hcached & Hpoints & Hret) Hg Hnew Hr He. split_and!.
  - intros o d Hd Hnn. destruct (Hnew _ _ Hd Hnn) as [Hold|Hc]; [|done].
    apply createdFor_app. eauto.
  - intros t point Ht. destruct (Hr _ _ Ht) as [Hold|Hp]; [|done].
    eapply pointOk_stable; eauto.
  - intros t o h Hin. apply elem_of_app in Hin as [Hin|Hin].
    + destruct (Hret _ _ _ Hin) as [Hh Hd]. split; [done|].
      destruct (Hg _ _ Hd) as (d' & Hd' & Heq). rewrite Hd'. f_equal. by apply Heq.
    + apply list_elem_of_singleton in Hin. eauto.
Qed.

Lemma HistoryOk_silent (trace : list Event) (e : Event) (hp : gmap N HeapObject)
    (log log' : list Access) :
  HistoryOk trace hp log →
  (∀ a, storesTo a log' = []) →
  (∀ a, e ≠ evDispose a) →
  HistoryOk (trace ++ [e]) hp (log ++ log').
Proof.
  intros HH Hlog He a. specialize (HH a).
  rewrite storesTo_app, Hlog, app_nil_r, disposals_snoc.
  rewrite decide_False by done. by rewrite Nat.add_0_r.
Qed.

Lemma HistoryOk_allocate (trace : list Event) (e : Event) (hp : gmap N HeapObject)
    (log : list Access) (a : ptr) (x : HeapObject) :
  HistoryOk trace hp log →
  hp !! a = None →
  (∀ a', e ≠ evDispose a') →
  match x with
  | OrdinaryObject _ =>
      HistoryOk (trace ++ [e]) (<[a := x]> hp) (log ++ [])
  | WeakReferenceObject w =>
      referred w ≠ nullptr → is_Some (hp !! referred w) →
      HistoryOk (trace ++ [e]) (<[a := x]> hp) (log ++ [PlainStore a (referred w)])
  end.
Proof.
  intros HH Ha He.
  assert (Hd : ∀ a', disposals a' (trace ++ [e]) = disposals a' trace).
  { intros a'. rewrite disposals_snoc, decide_False by done. lia. }
  assert (Hkeep : ∀ a' o, is_Some (hp !! o) → a' ≠ a → is_Some (<[a := x]> hp !! o)).
  { intros a' o [y Hy] _. destruct (decide (a = o)) as [->|Hne]; [congruence|].
    rewrite lookup_insert_ne by done. eauto. }
  destruct x as [h|w].
  - intros a'. rewrite app_nil_r, Hd. specialize (HH a').
    destruct (decide (a = a')) as [->|Hne].
    + rewrite lookup_insert_eq. by rewrite Ha in HH.
    + rewrite lookup_insert_ne by done.
      destruct (hp !! a') as [[|w]|]; try done.
      destruct HH as (o & ? & ? & ? & ? & ?). exists o. split_and!; eauto.
  - intros Hnn Hob a'. rewrite storesTo_app, storesTo_store, Hd.
    pose proof (HH a') as HHa'.
    destruct (decide (a = a')) as [<-|Hne].
    + rewrite lookup_insert_eq. rewrite Ha in HHa'. destruct HHa' as [-> ->].
      exists (referred w). simpl. split_and!; try done.
      * intros Heq. rewrite Heq, Ha in Hob. by destruct Hob.
      * destruct Hob as [y Hy]. destruct (decide (a = referred w)) as [Heq|?].
        { rewrite <- Heq in Hy. congruence. }
        rewrite lookup_insert_ne by done. eauto.
    + rewrite lookup_insert_ne, app_nil_r by done.
      destruct (hp !! a') as [[|w']|]; try done.
      destruct HHa' as (o & ? & ? & ? & ? & ?). exists o. split_and!; eauto.
Qed.

Lemma HistoryOk_dispose (trace : list Event) (hp : gmap N HeapObject)
    (log : list Access) (a : ptr) (w : RegularWeakReferenceImpl) :
  HistoryOk trace hp log →
  hp !! a = Some (WeakReferenceObject w) →
  HistoryOk (trace ++ [evDispose a])
    (<[a := WeakReferenceObject (mkRegularWeakReferenceImpl (header w) nullptr)]> hp)
    (log ++ [PlainStore a nullptr]).
Proof.
  intros HH Ha a'. rewrite storesTo_app, storesTo_store, disposals_snoc.
  pose proof (HH a') as HHa'.
  assert (Hkeep : ∀ o, is_Some (hp !! o) →
            is_Some (<[a := WeakReferenceObject
                              (mkRegularWeakReferenceImpl (header w) nullptr)]> hp !! o)).
  { intros o [y Hy]. destruct (decide (a = o)) as [->|Hne].
    - rewrite lookup_insert_eq. eauto.
    - rewrite lookup_insert_ne by done. eauto. }
  destruct (decide (a = a')) as [<-|Hne].
  - rewrite lookup_insert_eq, decide_True by done. rewrite Ha in HHa'.
    destruct HHa' as (o & ? & ? & ? & Hst & ?). exists o. split_and!; eauto.
    + rewrite Hst. simpl. f_equal. rewrite Nat.add_1_r. simpl.
      by rewrite replicate_cons_app.
    + simpl. rewrite decide_False by lia. done.
  - rewrite lookup_insert_ne by done.
    rewrite decide_False by congruence. rewrite app_nil_r, Nat.add_0_r.
    destruct (hp !! a') as [[|w']|]; try done.
    destruct HHa' as (o & ? & ? & ? & ? & ?). exists o. split_and!; eauto.
Qed.

(** In the obligation on the threads of a step of thread [t]: every other
    thread is where it was. *)
Ltac running_at t :=
  let t' := fresh "t'" in
  let p' := fresh "p'" in
  intros t' p'; destruct (decide (t = t')) as [<-|?];
  [rewrite lookup_insert_eq; intros [= <-]; right
  |rewrite lookup_insert_ne by done; by left].

Section Concurrent.

Variable allocate : Runtime → ptr.
Hypothesis allocate_fresh : ∀ σ, allocate σ ≠ nullptr ∧ heap σ !! allocate σ = None.

Lemma step_consistent (trace : list Event) (c c' : Config) (e : Event) :
  Consistent trace c → step allocate c e = Some c' → Consistent (trace ++ [e]) c'.
Proof.
  intros HI Hstep. destruct c as [σ r acc]. destruct σ as [hp ex th].
  destruct HI as [Hheap Hhist Htable]. simpl in *.
  assert (Hpoints := proj1 (proj2 Htable)).
  assert (Hcached := proj1 Htable).
  assert (Hreturned := proj2 (proj2 Htable)).
  destruct e as [t o|t|t o h|a|a res|a res|hd|t s]; simpl in Hstep.
  - (* evCall *)
    destruct (r !! t) eqn:Hr; [done|]. injection Hstep as <-.
    rewrite <- (app_nil_r acc). constructor; simpl; [done| |].
    + by apply HistoryOk_silent.
    + eapply TableOk_transfer; eauto using extraGrows_refl; [|done].
      running_at t. done.
  - (* evStep *)
    destruct (r !! t) as [p|] eqn:Hr; [|done].
    specialize (Hpoints _ _ Hr).
    destruct p as [o|o|o e|o e|o e w|o res]; [..|done]; unfold perform in Hstep; simpl in *.
    + (* lines 33-34 *)
      unfold_op. simpl in *. destruct (th !! t) as [thread|]; [|done].
      case_decide; [|done]. injection Hstep as <-.
      constructor; simpl; [done| |].
      * by apply HistoryOk_silent.
      * eapply TableOk_transfer; eauto using extraGrows_refl; [|done].
        running_at t. done.
    + (* line 36 *)
      unfold_op. simpl in *. destruct (hp !! o) as [x|] eqn:Ho; [|done].
      destruct (ex !! o) as [d|] eqn:Hd; injection Hstep as <-.
      * constructor; simpl; [done| |].
        -- by apply HistoryOk_silent.
        -- eapply TableOk_transfer; eauto using extraGrows_refl; [|done].
           running_at t. simpl. eauto.
      * constructor; simpl.
        -- destruct Hheap as [Hnull Hobj]. split; [done|]. intros o' d'.
           destruct (decide (o = o')) as [<-|Hne].
           ++ eauto.
           ++ rewrite lookup_insert_ne by done. eauto.
        -- by apply HistoryOk_silent.
        -- eapply TableOk_transfer; eauto; [| | |done].
           ++ intros o' d' Hd'. exists d'. split; [|done].
              rewrite lookup_insert_ne; [done|congruence].
           ++ intros o' d'. destruct (decide (o = o')) as [<-|Hne].
              ** rewrite lookup_insert_eq. by intros [= <-].
              ** rewrite lookup_insert_ne by done. eauto.
           ++ running_at t. simpl. rewrite lookup_insert_eq. eauto.
    + (* line 37 *)
      destruct Hpoints as [-> [d Hd]].
      unfold_op. simpl in *. rewrite Hd in Hstep. injection Hstep as <-.
      constructor; simpl; [done| |].
      * by apply HistoryOk_silent.
      * eapply TableOk_transfer; eauto using extraGrows_refl; [|done].
        running_at t. case_decide; simpl; [|eauto].
        split; [done|]. by destruct d.
    + (* line 41 *)
      destruct Hpoints as [-> [d Hd]].
      unfold_op. simpl in *. injection Hstep as <-.
      destruct (allocate_fresh (mkRuntime hp ex th)) as [Hnn Hfresh]. simpl in Hfresh.
      set (a := allocate (mkRuntime hp ex th)) in *.
      destruct Hheap as [Hnull Hobj]. pose proof (Hobj _ _ Hd) as Ho.
      assert (o ≠ nullptr) by (intros ->; rewrite Hnull in Ho; by destruct Ho).
      constructor; simpl.
      * split.
        -- rewrite lookup_insert_ne; done.
        -- intros o' d' Hd'. destruct (Hobj _ _ Hd') as [y Hy].
           destruct (decide (a = o')) as [<-|?]; [congruence|].
           rewrite lookup_insert_ne by done. eauto.
      * by apply (HistoryOk_allocate trace (evStep t) hp acc a
                    (WeakReferenceObject
                       (mkRegularWeakReferenceImpl
                          (mkObjHeader theRegularWeakReferenceImplTypeInfo) o))).
      * eapply TableOk_transfer; eauto using extraGrows_refl; [|done].
        running_at t. simpl. split_and!; eauto.
        unfold createdFor. rewrite storesTo_app, storesTo_store, decide_True by done.
        specialize (Hhist a). rewrite Hfresh in Hhist. destruct Hhist as [-> _]. done.
    + (* lines 42-43 *)
      destruct Hpoints as (-> & [d Hd] & Hw & Hc).
      unfold_op. simpl in *. rewrite Hd in Hstep.
      destruct (decide (regularWeakReferenceImpl d = nullptr)) as [Hempty|Hfull];
        injection Hstep as <-.
      * constructor; simpl.
        -- destruct Hheap as [Hnull Hobj]. split; [done|]. intros o' d'.
           destruct (decide (o = o')) as [<-|Hne]; [eauto|].
           rewrite lookup_insert_ne by done. eauto.
        -- by apply HistoryOk_silent.
        -- eapply TableOk_transfer; eauto; [| | |done].
           ++ intros o' d' Hd'. destruct (decide (o = o')) as [<-|Hne].
              ** rewrite lookup_insert_eq. eexists. split; [done|]. congruence.
              ** rewrite lookup_insert_ne by done. eauto.
           ++ intros o' d'. destruct (decide (o = o')) as [<-|Hne].
              ** rewrite lookup_insert_eq. intros [= <-] _. right. simpl.
                 by apply createdFor_app.
              ** rewrite lookup_insert_ne by done. eauto.
           ++ running_at t. simpl. by rewrite lookup_insert_eq.
      * constructor; simpl; [done| |].
        -- by apply HistoryOk_silent.
        -- eapply TableOk_transfer; eauto using extraGrows_refl; [|done].
           running_at t. simpl. split; [done|]. by destruct d.
  - (* evReturn *)
    destruct (r !! t) as [[| | | | |o' res]|] eqn:Hr; try done.
    case_decide as Heq; [|done]. destruct Heq as [-> ->]. injection Hstep as <-.
    specialize (Hpoints _ _ Hr). simpl in Hpoints.
    rewrite <- (app_nil_r acc). constructor; simpl; [done| |].
    + by apply HistoryOk_silent.
    + eapply TableOk_transfer; eauto using extraGrows_refl.
      * intros t' p' Ht'. left. by apply lookup_delete_Some in Ht' as [_ ?].
      * by intros ??? [= _ <- <-].
  - (* evDispose *)
    unfold perform, disposeRegularWeakReferenceImpl, asRegularWeakReferenceImpl in Hstep.
    simpl in Hstep. destruct (hp !! a) as [[|w]|] eqn:Ha; try done.
    injection Hstep as <-. constructor; simpl.
    + destruct Hheap as [Hnull Hobj]. split.
      * rewrite lookup_insert_ne; [done|]. intros ->. congruence.
      * intros o' d' Hd'. destruct (Hobj _ _ Hd') as [y Hy].
        destruct (decide (a = o')) as [<-|?].
        -- rewrite lookup_insert_eq. eauto.
        -- rewrite lookup_insert_ne by done. eauto.
    + by apply HistoryOk_dispose.
    + eapply TableOk_transfer; eauto using extraGrows_refl; done.
  - (* evDeref *)
    unfold perform, derefRegularWeakReferenceImpl, ReadHeapRefAtomic in Hstep.
    simpl in Hstep. destruct (hp !! a) as [[|w]|] eqn:Ha; try done.
    case_decide; [|done]. injection Hstep as <-.
    constructor; simpl; [done| |].
    + by apply HistoryOk_silent.
    + eapply TableOk_transfer; eauto using extraGrows_refl; done.
  - (* evBaseObjectUnsafe *)
    unfold perform, regularWeakReferenceImplBaseObjectUnsafe, asRegularWeakReferenceImpl
      in Hstep.
    simpl in Hstep. destruct (hp !! a) as [[|w]|] eqn:Ha; try done.
    case_decide; [|done]. injection Hstep as <-.
    constructor; simpl; [done| |].
    + by apply HistoryOk_silent.
    + eapply TableOk_transfer; eauto using extraGrows_refl; done.
  - (* evNewObject *)
    unfold perform, allocateOrdinaryObject in Hstep. simpl in Hstep.
    injection Hstep as <-.
    destruct (allocate_fresh (mkRuntime hp ex th)) as [Hnn Hfresh]. simpl in Hfresh.
    set (a := allocate (mkRuntime hp ex th)) in *.
    destruct Hheap as [Hnull Hobj].
    constructor; simpl.
    + split.
      * rewrite lookup_insert_ne; done.
      * intros o' d' Hd'. destruct (Hobj _ _ Hd') as [y Hy].
        destruct (decide (a = o')) as [<-|?]; [congruence|].
        rewrite lookup_insert_ne by done. eauto.
    + by apply (HistoryOk_allocate trace (evNewObject hd) hp acc a (OrdinaryObject hd)).
    + eapply TableOk_transfer; eauto using extraGrows_refl; done.
  - (* evThreadState *)
    destruct (r !! t) eqn:Hr; [done|].
    unfold perform, switchThreadState in Hstep. simpl in Hstep. injection Hstep as <-.
    constructor; simpl; [done| |].
    + by apply HistoryOk_silent.
    + eapply TableOk_transfer; eauto using extraGrows_refl; done.
Qed.

Lemma run_cons (c : Config) (e : Event) (trace : list Event) :
  run allocate c (e :: trace) = step allocate c e ≫= λ c', run allocate c' trace.
Proof. simpl. by destruct (step allocate c e). Qed.

Lemma run_app (c : Config) (trace trace' : list Event) :
  run allocate c (trace ++ trace') = run allocate c trace ≫= λ c', run allocate c' trace'.
Proof.
  revert c. induction trace as [|e trace IH]; intros c; simpl; [done|].
  destruct (step allocate c e); simpl; [apply IH|done].
Qed.

Lemma createStep_pointObject (self : ThreadId) (point next : CreatePoint)
    (σ σ' : Runtime) (log : list Access) :
  createStep allocate self point σ = Returns next σ' log → pointObject next = pointObject point.
Proof.
  destruct point as [o|o|o e|o e|o e w|o res]; simpl; unfold_op.
  - destruct (threadRegistry σ !! self); [|done]. case_decide; [|done]. by intros [= <- _ _].
  - destruct (heap σ !! o); [|done].
    destruct (extraObjects σ !! o); by intros [= <- _ _].
  - destruct (extraObjects σ !! e); [|done]. intros [= <- _ _]. by case_decide.
  - by intros [= <- _ _].
  - destruct (extraObjects σ !! e); [|done]. case_decide; by intros [= <- _ _].
  - by intros [= <- _ _].
Qed.

(** A thread that runs alone is an execution of the system in which every
    step is a step of that thread. *)
Lemma createFrom_as_steps (fuel : nat) (c : Config) (self : ThreadId) (point : CreatePoint)
    (h : ptr) (σ' : Runtime) (log : list Access) :
  running c !! self = Some point →
  createFrom allocate fuel self point (runtime c) = Returns (Some h) σ' log →
  ∃ k, run allocate c (replicate k (evStep self))
       = Some (mkConfig σ' (<[self := atReturn (pointObject point) h]> (running c))
                 (accesses c ++ log)).
Proof.
  revert c point log. induction fuel as [|fuel IH]; intros c point log Hpoint Hfrom.
  - destruct point as [o|o|o e|o e|o e w|o res]; try done.
    injection Hfrom as <- <- <-. exists 0. simpl.
    rewrite insert_id, app_nil_r by done. by destruct c.
  - assert ((∃ o res, point = atReturn o res) ∨ ¬ ∃ o res, point = atReturn o res)
      as [(o & res & ->)|Hnot].
    { destruct point; eauto; right; by intros (? & ? & ?). }
    { injection Hfrom as <- <- <-. exists 0. simpl.
      rewrite insert_id, app_nil_r by done. by destruct c. }
    assert (Hbind : (createStep allocate self point ≫= createFrom allocate fuel self)
                      (runtime c) = Returns (Some h) σ' log).
    { destruct point; try done. exfalso. eauto. }
    apply bind_Returns in Hbind as (next & σ1 & log1 & log2 & Hstep & Hrest & ->).
    set (c1 := mkConfig σ1 (<[self := next]> (running c)) (accesses c ++ log1)).
    assert (Hc1 : step allocate c (evStep self) = Some c1).
    { simpl. rewrite Hpoint. unfold perform. rewrite Hstep.
      destruct point; try done. exfalso. eauto. }
    destruct (IH c1 next log2) as [k Hk]; [apply lookup_insert_eq|done|].
    exists (S k). simpl replicate. rewrite run_cons, Hc1. simpl. rewrite Hk.
    unfold c1. cbn [running accesses runtime].
    rewrite insert_insert_eq, (assoc_L (++)).
    by rewrite (createStep_pointObject _ _ _ _ _ _ Hstep).
Qed.

(** A call of [createRegularWeakReferenceImpl] that returns is an execution
    of the system: the thread enters, runs its actions with no other thread
    in between, and returns. *)
Lemma create_as_trace (c : Config) (self : ThreadId) (object h : ptr)
    (σ' : Runtime) (log : list Access) :
  running c !! self = None →
  createRegularWeakReferenceImpl allocate self object (runtime c) = Returns h σ' log →
  ∃ k, run allocate c (evCall self object :: replicate k (evStep self)
                         ++ [evReturn self object h])
       = Some (mkConfig σ' (running c) (accesses c ++ log)).
Proof.
  intros Hidle Hcreate.
  set (c0 := mkConfig (runtime c) (<[self := atEntry object]> (running c)) (accesses c)).
  assert (Hfrom : createFrom allocate 5 self (atEntry object) (runtime c0)
                  = Returns (Some h) σ' log).
  { rewrite createFrom_entry. unfold mbind, Op_bind. simpl. rewrite Hcreate.
    simpl. by rewrite app_nil_r. }
  apply createFrom_as_steps in Hfrom as [k Hk]; [|apply lookup_insert_eq].
  assert (Hcall : step allocate c (evCall self object) = Some c0).
  { simpl. by rewrite Hidle. }
  exists k. rewrite run_cons, Hcall. simpl. rewrite run_app, Hk.
  unfold c0. cbn [running accesses runtime mbind option_bind run step pointObject].
  rewrite lookup_insert_eq. rewrite decide_True by done.
  by rewrite insert_insert_eq, delete_insert_id.
Qed.

Lemma run_consistent (trace' trace : list Event) (c c' : Config) :
  Consistent trace c → run allocate c trace' = Some c' → Consistent (trace ++ trace') c'.
Proof.
  revert trace c. induction trace' as [|e trace' IH]; intros trace c HI Hrun; simpl in Hrun.
  - injection Hrun as <-. by rewrite app_nil_r.
  - destruct (step allocate c e) as [c1|] eqn:Hstep; [|done].
    rewrite cons_middle, (assoc_L (++)).
    eapply IH; [|done]. by eapply step_consistent.
Qed.

Lemma initial_consistent (objects : gmap N ObjHeader) (threads : gmap nat ThreadData) :
  Consistent [] (initialConfig objects threads).
Proof.
  constructor; simpl.
  - split; [|done]. by rewrite lookup_fmap, lookup_delete_eq.
  - intros a. rewrite lookup_fmap.
    by destruct (delete nullptr objects !! a).
  - split_and!; [done|done|]. intros t o h Hin. by apply elem_of_nil in Hin.
Qed.

Lemma reachable_consistent (objects : gmap N ObjHeader) (threads : gmap nat ThreadData)
    (trace : list Event) (c : Config) :
  run allocate (initialConfig objects threads) trace = Some c → Consistent trace c.
Proof. intros Hrun. apply (run_consistent trace [] _ _ (initial_consistent _ _) Hrun). Qed.

Lemma step_cleared (c c' : Config) (e : Event) (H : ptr) :
  cleared (runtime c) H → step allocate c e = Some c' → cleared (runtime c') H.
Proof.
  intros (w & Hw & Hnull) Hstep. destruct c as [σ r acc]. simpl in *.
  assert (Hfresh : allocate σ ≠ H).
  { intros <-. destruct (allocate_fresh σ). congruence. }
  destruct e as [t o|t|t o h|a|a res|a res|hd|t s]; simpl in Hstep.
  - destruct (r !! t); [done|]. injection Hstep as <-. by exists w.
  - destruct (r !! t) as [p|]; [|done].
    destruct p as [o|o|o e|o e|o e w'|o res]; [..|done]; unfold perform in Hstep;
      unfold_op; simpl in *.
    + destruct (threadRegistry σ !! t); [|done]. case_decide; [|done].
      injection Hstep as <-. by exists w.
    + destruct (heap σ !! o); [|done].
      destruct (extraObjects σ !! o); injection Hstep as <-; by exists w.
    + destruct (extraObjects σ !! e); [|done]. injection Hstep as <-. by exists w.
    + injection Hstep as <-. exists w. simpl. by rewrite lookup_insert_ne.
    + destruct (extraObjects σ !! e); [|done].
      case_decide; injection Hstep as <-; by exists w.
  - destruct (r !! t) as [[| | | | |o' res]|]; try done.
    case_decide; [|done]. injection Hstep as <-. by exists w.
  - unfold perform, disposeRegularWeakReferenceImpl, asRegularWeakReferenceImpl in Hstep.
    simpl in Hstep. destruct (heap σ !! a) as [[|w']|] eqn:Ha; try done.
    injection Hstep as <-. unfold cleared. simpl. destruct (decide (a = H)) as [->|Hne].
    + eexists. by rewrite lookup_insert_eq.
    + exists w. by rewrite lookup_insert_ne.
  - unfold perform, derefRegularWeakReferenceImpl, ReadHeapRefAtomic in Hstep.
    simpl in Hstep. destruct (heap σ !! a) as [[|w']|]; try done.
    case_decide; [|done]. injection Hstep as <-. by exists w.
  - unfold perform, regularWeakReferenceImplBaseObjectUnsafe, asRegularWeakReferenceImpl
      in Hstep.
    simpl in Hstep. destruct (heap σ !! a) as [[|w']|]; try done.
    case_decide; [|done]. injection Hstep as <-. by exists w.
  - unfold perform, allocateOrdinaryObject in Hstep. simpl in Hstep.
    injection Hstep as <-. exists w. simpl. by rewrite lookup_insert_ne.
  - destruct (r !! t); [done|].
    unfold perform, switchThreadState in Hstep. simpl in Hstep. injection Hstep as <-.
    by exists w.
Qed.

Lemma run_cleared (trace : list Event) (c c' : Config) (H : ptr) :
  cleared (runtime c) H → run allocate c trace = Some c' → cleared (runtime c') H.
Proof.
  revert c. induction trace as [|e trace IH]; intros c Hc Hrun; simpl in Hrun.
  - by injection Hrun as <-.
  - destruct (step allocate c e) as [c1|] eqn:Hstep; [|done].
    eapply IH; [|done]. by eapply step_cleared.
Qed.

(** C2. Once [disposeRegularWeakReferenceImpl] has run on a handle, whatever
    the threads and the collector do next (calls of
    [createRegularWeakReferenceImpl] at any point of their execution, other
    disposals, dereferences, allocations), dereferencing the handle returns
    [nullptr]: the cleared state is never left. *)
Theorem deref_after_dispose_is_empty (c c1 c' : Config) (trace : list Event) (H : ptr) :
  step allocate c (evDispose H) = Some c1 →
  run allocate c1 trace = Some c' →
  derefRegularWeakReferenceImpl H (runtime c') = Returns nullptr (runtime c') [AtomicLoad H].
Proof.
  intros Hdispose Hrun.
  assert (Hc1 : cleared (runtime c1) H).
  { simpl in Hdispose.
    unfold perform, disposeRegularWeakReferenceImpl, asRegularWeakReferenceImpl in Hdispose.
    destruct (heap (runtime c) !! H) as [[|w]|]; try done.
    injection Hdispose as <-. unfold cleared. simpl. eexists. by rewrite lookup_insert_eq. }
  destruct (run_cleared _ _ _ _ Hc1 Hrun) as (w & Hw & Hnull).
  unfold derefRegularWeakReferenceImpl, ReadHeapRefAtomic. by rewrite Hw, Hnull.
Qed.

(** Called again on the same object, by any runnable thread and with no
    other operation in between, [createRegularWeakReferenceImpl] returns the
    same handle and changes nothing. *)
Lemma create_again_same_handle (σ σ1 : Runtime) (self self' : ThreadId)
    (thread' : ThreadData) (O h : ptr) (log : list Access) :
  createRegularWeakReferenceImpl allocate self O σ = Returns h σ1 log →
  threadRegistry σ !! self' = Some thread' →
  state thread' = kRunnable →
  createRegularWeakReferenceImpl allocate self' O σ1 = Returns h σ1 [].
Proof.
  intros Hcreate Hthread Hstate.
  apply create_result in Hcreate as (Hd & [x Hx] & Hreg & Hnn).
  assert (h ≠ nullptr) as Hh.
  { destruct Hnn as [?|[σ0 ->]]; [done|]. apply allocate_fresh. }
  unfold_op. rewrite Hreg, Hthread. rewrite decide_True by done.
  rewrite Hx, Hd. cbn [extraObjects heap threadRegistry]. rewrite Hd.
  cbn [regularWeakReferenceImpl]. by rewrite decide_True.
Qed.

(** In every execution, what the [referred] field of a handle holds is not
    the handle itself. *)
Lemma target_is_not_the_handle (objects : gmap N ObjHeader) (threads : gmap nat ThreadData)
    (trace : list Event) (c : Config) (H : ptr) (w : RegularWeakReferenceImpl) :
  run allocate (initialConfig objects threads) trace = Some c →
  asRegularWeakReferenceImpl (runtime c) H = Some w →
  referred w ≠ H.
Proof.
  intros Hrun Hw. apply reachable_consistent in Hrun as [[Hnull _] Hhist _].
  specialize (Hhist H). unfold asRegularWeakReferenceImpl in Hw.
  destruct (heap (runtime c) !! H) as [[|w']|] eqn:HH; try done.
  injection Hw as ->. destruct Hhist as (o & _ & Hne & _ & _ & Href).
  rewrite Href. case_decide; [done|]. intros <-. congruence.
Qed.

(** C1. In every execution of the system, with calls of
    [createRegularWeakReferenceImpl] running one after the other or at the
    same time on several threads, all the handles returned for the same
    object are the same non-null handle, and it is the one cached in the side
    table of the object. *)
Theorem create_returns_one_handle (objects : gmap N ObjHeader) (threads : gmap nat ThreadData)
    (trace : list Event) (c : Config) (t1 t2 : ThreadId) (O h1 h2 : ptr) :
  run allocate (initialConfig objects threads) trace = Some c →
  evReturn t1 O h1 ∈ trace →
  evReturn t2 O h2 ∈ trace →
  h1 = h2 ∧ h1 ≠ nullptr
  ∧ extraObjects (runtime c) !! O = Some (mkExtraObjectData h1).
Proof.
  intros Hrun H1 H2. apply reachable_consistent in Hrun as [_ _ (_ & _ & Hret)].
  destruct (Hret _ _ _ H1) as [Hnn1 Hd1]. destruct (Hret _ _ _ H2) as [_ Hd2].
  split_and!; [congruence|done..].
Qed.

(** C3. In every execution of the system, a handle that
    [createRegularWeakReferenceImpl] returned for object [O] and that has not
    been disposed dereferences to [O], which is not [nullptr]. *)
Theorem deref_before_dispose_is_target (objects : gmap N ObjHeader)
    (threads : gmap nat ThreadData) (trace : list Event) (c : Config)
    (t : ThreadId) (O H : ptr) :
  run allocate (initialConfig objects threads) trace = Some c →
  evReturn t O H ∈ trace →
  evDispose H ∉ trace →
  O ≠ nullptr
  ∧ is_Some (heap (runtime c) !! O)
  ∧ derefRegularWeakReferenceImpl H (runtime c) = Returns O (runtime c) [AtomicLoad H].
Proof.
  intros Hrun Hin Hnot.
  apply reachable_consistent in Hrun as [_ Hhist (Hcached & _ & Hret)].
  destruct (Hret _ _ _ Hin) as [Hnn Hd]. specialize (Hcached _ _ Hd Hnn). simpl in Hcached.
  specialize (Hhist H). unfold derefRegularWeakReferenceImpl, ReadHeapRefAtomic.
  assert (Hzero : disposals H trace = 0).
  { by apply disposals_absent. }
  destruct (heap (runtime c) !! H) as [[|w]|].
  - destruct Hhist as [Hst _]. unfold createdFor in Hcached. by rewrite Hst in Hcached.
  - destruct Hhist as (o & Ho & _ & Hob & Hst & Href).
    assert (o = O) as ->.
    { unfold createdFor in Hcached. rewrite Hst in Hcached. simpl in Hcached. congruence. }
    rewrite Hzero in Href. simpl in Href. rewrite Href. done.
  - destruct Hhist as [Hst _]. unfold createdFor in Hcached. by rewrite Hst in Hcached.
Qed.

(** At the grain of the system, where every access to a [referred] field is
    one step, a dereference observes the object the handle was made for or
    [nullptr], and nothing else. *)
Lemma deref_observes_target_or_null (objects : gmap N ObjHeader)
    (threads : gmap nat ThreadData) (trace : list Event) (c c' : Config) (H result : ptr) :
  run allocate (initialConfig objects threads) trace = Some c →
  step allocate c (evDeref H result) = Some c' →
  result = nullptr ∨ createdFor (accesses c) H result.
Proof.
  intros Hrun Hstep. apply reachable_consistent in Hrun as [_ Hhist _].
  specialize (Hhist H). simpl in Hstep.
  unfold perform, derefRegularWeakReferenceImpl, ReadHeapRefAtomic in Hstep.
  destruct (heap (runtime c) !! H) as [[|w]|]; try done.
  case_decide as Hres; [|done]. subst result.
  destruct Hhist as (o & _ & _ & _ & Hst & Href). rewrite Href.
  case_decide; [right|by left]. unfold createdFor. by rewrite Hst.
Qed.

(** *** What one step does to the heap and to the side table *)

Lemma objectKept_refl (x : HeapObject) : objectKept x x.
Proof. destruct x as [h|w]; simpl; eauto. Qed.

Lemma heapPersists_refl (hp : gmap N HeapObject) : heapPersists hp hp.
Proof. intros a x Hx. eauto using objectKept_refl. Qed.

Lemma heapPersists_trans (hp1 hp2 hp3 : gmap N HeapObject) :
  heapPersists hp1 hp2 → heapPersists hp2 hp3 → heapPersists hp1 hp3.
Proof.
  intros H12 H23 a x Hx. destruct (H12 _ _ Hx) as (x2 & Hx2 & Hk12).
  destruct (H23 _ _ Hx2) as (x3 & Hx3 & Hk23). exists x3. split; [done|].
  destruct x as [h|w]; simpl in *.
  - subst x2. simpl in Hk23. by subst x3.
  - destruct Hk12 as (w2 & -> & Hh2 & Hr2). simpl in Hk23.
    destruct Hk23 as (w3 & -> & Hh3 & Hr3). exists w3. split_and!; [done|congruence|].
    destruct Hr3 as [Hr3|Hr3]; [|by right]. rewrite Hr3. done.
Qed.

Lemma heapPersists_allocate (hp : gmap N HeapObject) (a : ptr) (x : HeapObject) :
  hp !! a = None → heapPersists hp (<[a := x]> hp).
Proof.
  intros Ha a' x' Hx'. exists x'. split; [|apply objectKept_refl].
  rewrite lookup_insert_ne; [done|congruence].
Qed.

Lemma heapPersists_dispose (hp : gmap N HeapObject) (a : ptr) (w : RegularWeakReferenceImpl) :
  hp !! a = Some (WeakReferenceObject w) →
  heapPersists hp
    (<[a := WeakReferenceObject (mkRegularWeakReferenceImpl (header w) nullptr)]> hp).
Proof.
  intros Ha a' x' Hx'. destruct (decide (a = a')) as [<-|Hne].
  - rewrite lookup_insert_eq. eexists. split; [done|].
    assert (x' = WeakReferenceObject w) as -> by congruence. simpl. eauto.
  - rewrite lookup_insert_ne by done. eauto using objectKept_refl.
Qed.

Lemma extraGrows_trans (e1 e2 e3 : gmap N ExtraObjectData) :
  extraGrows e1 e2 → extraGrows e2 e3 → extraGrows e1 e3.
Proof.
  intros H12 H23 o d Hd. destruct (H12 _ _ Hd) as (d2 & Hd2 & Heq2).
  destruct (H23 _ _ Hd2) as (d3 & Hd3 & Heq3). exists d3. split; [done|].
  intros Hnn. specialize (Heq2 Hnn). subst d2. by apply Heq3.
Qed.

Lemma step_effect (c c' : Config) (e : Event) :
  step allocate c e = Some c' →
  heapPersists (heap (runtime c)) (heap (runtime c'))
  ∧ extraGrows (extraObjects (runtime c)) (extraObjects (runtime c')).
Proof.
  intros Hstep. destruct c as [σ r acc]. simpl in *.
  pose proof (proj2 (allocate_fresh σ)) as Hfresh.
  destruct e as [t o|t|t o h|a|a res|a res|hd|t s]; simpl in Hstep.
  - destruct (r !! t); [done|]. injection Hstep as <-.
    split; [apply heapPersists_refl|apply extraGrows_refl].
  - destruct (r !! t) as [p|]; [|done].
    destruct p as [o|o|o e|o e|o e w'|o res]; [..|done]; unfold perform in Hstep;
      unfold_op; simpl in *.
    + destruct (threadRegistry σ !! t); [|done]. case_decide; [|done].
      injection Hstep as <-. split; [apply heapPersists_refl|apply extraGrows_refl].
    + destruct (heap σ !! o); [|done].
      destruct (extraObjects σ !! o) eqn:Ho; injection Hstep as <-;
        (split; [apply heapPersists_refl|]); [apply extraGrows_refl|].
      simpl. intros o' d' Hd'. exists d'. split; [|done].
      rewrite lookup_insert_ne; [done|congruence].
    + destruct (extraObjects σ !! e); [|done]. injection Hstep as <-.
      split; [apply heapPersists_refl|apply extraGrows_refl].
    + injection Hstep as <-. split; [by apply heapPersists_allocate|apply extraGrows_refl].
    + destruct (extraObjects σ !! e) as [d|] eqn:Hd; [|done].
      case_decide as Hslot; injection Hstep as <-;
        (split; [apply heapPersists_refl|]); [|apply extraGrows_refl].
      simpl. intros o' d' Hd'. destruct (decide (e = o')) as [<-|Hne].
      * rewrite lookup_insert_eq. eexists. split; [done|]. congruence.
      * rewrite lookup_insert_ne by done. eauto.
  - destruct (r !! t) as [[| | | | |o' res]|]; try done.
    case_decide; [|done]. injection Hstep as <-.
    split; [apply heapPersists_refl|apply extraGrows_refl].
  - unfold perform, disposeRegularWeakReferenceImpl, asRegularWeakReferenceImpl in Hstep.
    simpl in Hstep. destruct (heap σ !! a) as [[|w']|] eqn:Ha; try done.
    injection Hstep as <-. split; [by apply heapPersists_dispose|apply extraGrows_refl].
  - unfold perform, derefRegularWeakReferenceImpl, ReadHeapRefAtomic in Hstep.
    simpl in Hstep. destruct (heap σ !! a) as [[|w']|]; try done.
    case_decide; [|done]. injection Hstep as <-.
    split; [apply heapPersists_refl|apply extraGrows_refl].
  - unfold perform, regularWeakReferenceImplBaseObjectUnsafe, asRegularWeakReferenceImpl
      in Hstep.
    simpl in Hstep. destruct (heap σ !! a) as [[|w']|]; try done.
    case_decide; [|done]. injection Hstep as <-.
    split; [apply heapPersists_refl|apply extraGrows_refl].
  - unfold perform, allocateOrdinaryObject in Hstep. simpl in Hstep.
    injection Hstep as <-. split; [by apply heapPersists_allocate|apply extraGrows_refl].
  - destruct (r !! t); [done|].
    unfold perform, switchThreadState in Hstep. simpl in Hstep. injection Hstep as <-.
    split; [apply heapPersists_refl|apply extraGrows_refl].
Qed.

Lemma run_effect (trace : list Event) (c c' : Config) :
  run allocate c trace = Some c' →
  heapPersists (heap (runtime c)) (heap (runtime c'))
  ∧ extraGrows (extraObjects (runtime c)) (extraObjects (runtime c')).
Proof.
  revert c. induction trace as [|e trace IH]; intros c Hrun; simpl in Hrun.
  - injection Hrun as <-. split; [apply heapPersists_refl|apply extraGrows_refl].
  - destruct (step allocate c e) as [c1|] eqn:Hstep; [|done].
    destruct (step_effect _ _ _ Hstep) as [Hh1 He1]. destruct (IH _ Hrun) as [Hh2 He2].
    split; [by eapply heapPersists_trans|by eapply extraGrows_trans].
Qed.

(** *** The two ways through [createRegularWeakReferenceImpl] *)

Lemma create_cases (σ σ' : Runtime) (self : ThreadId) (object h : ptr) (log : list Access) :
  createRegularWeakReferenceImpl allocate self object σ = Returns h σ' log →
  (∃ thread, threadRegistry σ !! self = Some thread ∧ state thread = kRunnable)
  ∧ is_Some (heap σ !! object)
  ∧ ((∃ d, extraObjects σ !! object = Some d ∧ regularWeakReferenceImpl d ≠ nullptr
           ∧ h = regularWeakReferenceImpl d ∧ σ' = σ ∧ log = [])
     ∨ (let extra0 :=
          match extraObjects σ !! object with
          | Some _ => extraObjects σ
          | None => <[object := mkExtraObjectData nullptr]> (extraObjects σ)
          end in
        (∀ d, extraObjects σ !! object = Some d → regularWeakReferenceImpl d = nullptr)
        ∧ h = allocate (mkRuntime (heap σ) extra0 (threadRegistry σ))
        ∧ σ' = mkRuntime
                 (<[h := WeakReferenceObject
                           (mkRegularWeakReferenceImpl
                              (mkObjHeader theRegularWeakReferenceImplTypeInfo) object)]>
                    (heap σ))
                 (<[object := mkExtraObjectData h]> extra0) (threadRegistry σ)
        ∧ log = [PlainStore h object])).
Proof.
  unfold_op.
  destruct (threadRegistry σ !! self) as [thread|] eqn:Hthread; [|done].
  case_decide; [|done].
  destruct (heap σ !! object) as [x|] eqn:Hx; [|done].
  destruct (extraObjects σ !! object) as [d|] eqn:Hd.
  - cbn [extraObjects heap threadRegistry]. rewrite Hd.
    destruct (decide (regularWeakReferenceImpl d ≠ nullptr)) as [Hnn|Hnull].
    + intros [= <- <- <-]. split_and!; eauto. left. exists d. by destruct σ.
    + cbn [extraObjects heap threadRegistry]. rewrite Hd.
      destruct (decide (regularWeakReferenceImpl d = nullptr)) as [Hz|]; [|done].
      intros [= <- <- <-]. split_and!; eauto. right. cbn zeta.
      split_and!; try done. { intros d' [= <-]. done. }
      by destruct σ.
  - pose proof (lookup_insert_eq (extraObjects σ) object (mkExtraObjectData nullptr)) as Hl.
    set (extra' := <[object := mkExtraObjectData nullptr]> (extraObjects σ)) in *.
    cbn [extraObjects heap threadRegistry]. rewrite Hl.
    cbn [regularWeakReferenceImpl]. rewrite decide_False by (intros Hne; by apply Hne).
    cbn [extraObjects heap threadRegistry]. rewrite Hl.
    cbn [regularWeakReferenceImpl]. rewrite decide_True by done.
    intros [= <- <- <-]. split_and!; eauto. right. cbn zeta. split_and!; done.
Qed.

(** *** Further properties of the operations *)

(** X1. Once [disposeRegularWeakReferenceImpl] has run on a handle, whatever
    runs next, [regularWeakReferenceImplBaseObjectUnsafe] reads [nullptr]
    from it and leaves the runtime state as it is. *)
Theorem base_object_unsafe_after_dispose_is_null (c c1 c' : Config) (trace : list Event)
    (H : ptr) :
  step allocate c (evDispose H) = Some c1 →
  run allocate c1 trace = Some c' →
  regularWeakReferenceImplBaseObjectUnsafe H (runtime c')
  = Returns nullptr (runtime c') [PlainLoad H].
Proof.
  intros Hdispose Hrun.
  assert (Hc1 : cleared (runtime c1) H).
  { simpl in Hdispose.
    unfold perform, disposeRegularWeakReferenceImpl, asRegularWeakReferenceImpl in Hdispose.
    destruct (heap (runtime c) !! H) as [[|w]|]; try done.
    injection Hdispose as <-. unfold cleared. simpl. eexists. by rewrite lookup_insert_eq. }
  destruct (run_cleared _ _ _ _ Hc1 Hrun) as (w & Hw & Hnull).
  unfold regularWeakReferenceImplBaseObjectUnsafe, asRegularWeakReferenceImpl.
  by rewrite Hw, Hnull.
Qed.

(** X4. The first call for an object (a runnable thread, an object of the
    heap with no handle cached yet) takes the slow path: it returns a handle
    that is not [nullptr], at an address that was free, whose only access is
    the store of the constructor; the handle is a weak-reference object
    referring to the object, it is cached for the object, and dereferencing
    it straight away gives the object back. *)
Theorem create_first_call (σ : Runtime) (self : ThreadId) (thread : ThreadData)
    (object : ptr) :
  threadRegistry σ !! self = Some thread →
  state thread = kRunnable →
  is_Some (heap σ !! object) →
  (∀ d, extraObjects σ !! object = Some d → regularWeakReferenceImpl d = nullptr) →
  ∃ h σ',
    createRegularWeakReferenceImpl allocate self object σ
    = Returns h σ' [PlainStore h object]
    ∧ h ≠ nullptr ∧ heap σ !! h = None
    ∧ asRegularWeakReferenceImpl σ' h
      = Some (mkRegularWeakReferenceImpl
                (mkObjHeader theRegularWeakReferenceImplTypeInfo) object)
    ∧ extraObjects σ' !! object = Some (mkExtraObjectData h)
    ∧ derefRegularWeakReferenceImpl h σ' = Returns object σ' [AtomicLoad h].
Proof.
  intros Hthread Hstate [x Hx] Hempty. destruct σ as [hp ex th]. simpl in *.
  destruct (ex !! object) as [d|] eqn:Hd.
  - specialize (Hempty d eq_refl).
    destruct (allocate_fresh (mkRuntime hp ex th)) as [Hnn Hfresh]. simpl in Hfresh.
    set (h := allocate (mkRuntime hp ex th)) in *.
    exists h,
      (mkRuntime
         (<[h := WeakReferenceObject
                   (mkRegularWeakReferenceImpl
                      (mkObjHeader theRegularWeakReferenceImplTypeInfo) object)]> hp)
         (<[object := mkExtraObjectData h]> ex) th).
    split_and!; try done.
    + unfold_op. cbn [extraObjects heap threadRegistry].
      rewrite Hthread. rewrite decide_True by done.
      cbn [extraObjects heap threadRegistry]. rewrite Hx, Hd.
      cbn [extraObjects heap threadRegistry]. rewrite Hd.
      rewrite decide_False by (intros Hne; by apply Hne).
      cbn [extraObjects heap threadRegistry]. rewrite Hd.
      rewrite decide_True by done. done.
    + unfold asRegularWeakReferenceImpl. simpl. by rewrite lookup_insert_eq.
    + simpl. by rewrite lookup_insert_eq.
    + unfold derefRegularWeakReferenceImpl, ReadHeapRefAtomic. simpl.
      by rewrite lookup_insert_eq.
  - pose proof (lookup_insert_eq ex object (mkExtraObjectData nullptr)) as Hl.
    set (ex0 := <[object := mkExtraObjectData nullptr]> ex) in *.
    destruct (allocate_fresh (mkRuntime hp ex0 th)) as [Hnn Hfresh]. simpl in Hfresh.
    set (h := allocate (mkRuntime hp ex0 th)) in *.
    exists h,
      (mkRuntime
         (<[h := WeakReferenceObject
                   (mkRegularWeakReferenceImpl
                      (mkObjHeader theRegularWeakReferenceImplTypeInfo) object)]> hp)
         (<[object := mkExtraObjectData h]> ex0) th).
    split_and!; try done.
    + unfold_op. cbn [extraObjects heap threadRegistry].
      rewrite Hthread. rewrite decide_True by done.
      cbn [extraObjects heap threadRegistry]. rewrite Hx, Hd.
      fold ex0. cbn [extraObjects heap threadRegistry]. rewrite Hl.
      cbn [regularWeakReferenceImpl]. rewrite decide_False by (intros Hne; by apply Hne).
      cbn [extraObjects heap threadRegistry]. rewrite Hl.
      cbn [regularWeakReferenceImpl]. rewrite decide_True by done. done.
    + unfold asRegularWeakReferenceImpl. simpl. by rewrite lookup_insert_eq.
    + simpl. by rewrite lookup_insert_eq.
    + unfold derefRegularWeakReferenceImpl, ReadHeapRefAtomic. simpl.
      by rewrite lookup_insert_eq.
Qed.

(** X5. A call of [createRegularWeakReferenceImpl] that returns leaves the
    rest alone: the thread registry and every object that was in the heap are
    as before, at most the returned handle is new in the heap, the side-table
    entries of the other objects are as before, and no [referred] field of an
    object that was in the heap is stored to. *)
Theorem create_frame (σ σ' : Runtime) (self : ThreadId) (object h : ptr)
    (log : list Access) :
  createRegularWeakReferenceImpl allocate self object σ = Returns h σ' log →
  threadRegistry σ' = threadRegistry σ
  ∧ (∀ a x, heap σ !! a = Some x → heap σ' !! a = Some x)
  ∧ dom (heap σ') ⊆ dom (heap σ) ∪ {[h]}
  ∧ (∀ o, o ≠ object → extraObjects σ' !! o = extraObjects σ !! o)
  ∧ (∀ a, is_Some (heap σ !! a) → storesTo a log = []).
Proof.
  intros Hcreate. apply create_cases in Hcreate as (_ & _ & [Hfast|Hslow]).
  - destruct Hfast as (d & _ & _ & _ & -> & ->). split_and!; try done.
    apply union_subseteq_l.
  - cbn zeta in Hslow. destruct Hslow as (_ & Hh & -> & ->).
    set (extra0 := match extraObjects σ !! object with
                   | Some _ => extraObjects σ
                   | None => <[object := mkExtraObjectData nullptr]> (extraObjects σ)
                   end) in *.
    destruct (allocate_fresh (mkRuntime (heap σ) extra0 (threadRegistry σ)))
      as [_ Hfresh].
    rewrite <- Hh in Hfresh. simpl in Hfresh. simpl. split_and!; try done.
    + intros a x Ha. rewrite lookup_insert_ne; [done|congruence].
    + rewrite dom_insert_L. set_solver.
    + intros o Hne. rewrite lookup_insert_ne by done. unfold extra0.
      destruct (extraObjects σ !! object); [done|]. by rewrite lookup_insert_ne.
    + intros a [x Ha]. rewrite storesTo_store. rewrite decide_False; [done|congruence].
Qed.

(** X6. Disposal does not reset the cache: when the handle returned for an
    object has been disposed, the next call for the object, by any runnable
    thread, still returns that handle and changes nothing, and the handle
    dereferences to [nullptr]. *)
Theorem create_after_dispose_returns_cleared_handle (σ σ1 σ2 : Runtime)
    (self self' : ThreadId) (thread' : ThreadData) (O h : ptr) (log log' : list Access) :
  createRegularWeakReferenceImpl allocate self O σ = Returns h σ1 log →
  disposeRegularWeakReferenceImpl h σ1 = Returns () σ2 log' →
  threadRegistry σ !! self' = Some thread' →
  state thread' = kRunnable →
  createRegularWeakReferenceImpl allocate self' O σ2 = Returns h σ2 []
  ∧ derefRegularWeakReferenceImpl h σ2 = Returns nullptr σ2 [AtomicLoad h].
Proof.
  intros Hcreate Hdispose Hthread Hstate.
  apply create_result in Hcreate as (Hd & [x Hx] & Hreg & Hnn).
  assert (h ≠ nullptr) as Hh.
  { destruct Hnn as [?|[σ0 ->]]; [done|]. apply allocate_fresh. }
  unfold disposeRegularWeakReferenceImpl, asRegularWeakReferenceImpl in Hdispose.
  destruct (heap σ1 !! h) as [[|w]|] eqn:Hw; try done.
  injection Hdispose as <- <-.
  assert (HO : is_Some (<[h := WeakReferenceObject
                                 (mkRegularWeakReferenceImpl (header w) nullptr)]>
                          (heap σ1) !! O)).
  { destruct (decide (h = O)) as [->|?].
    - rewrite lookup_insert_eq. eauto.
    - rewrite lookup_insert_ne by done. eauto. }
  destruct HO as [y Hy]. split.
  - unfold_op. cbn [extraObjects heap threadRegistry].
    rewrite Hreg, Hthread. rewrite decide_True by done.
    cbn [extraObjects heap threadRegistry]. rewrite Hy, Hd.
    cbn [extraObjects heap threadRegistry]. rewrite Hd.
    cbn [regularWeakReferenceImpl]. by rewrite decide_True.
  - unfold derefRegularWeakReferenceImpl, ReadHeapRefAtomic. simpl.
    by rewrite lookup_insert_eq.
Qed.

(** X7. In every execution of the system, a handle that
    [createRegularWeakReferenceImpl] has returned is a weak-reference object
    of the heap: dereferencing it, reading it unsafely and disposing it are
    all defined. *)
Theorem returned_handle_is_weak_reference (objects : gmap N ObjHeader)
    (threads : gmap nat ThreadData) (trace : list Event) (c : Config)
    (t : ThreadId) (O H : ptr) :
  run allocate (initialConfig objects threads) trace = Some c →
  evReturn t O H ∈ trace →
  ∃ w, asRegularWeakReferenceImpl (runtime c) H = Some w
       ∧ derefRegularWeakReferenceImpl H (runtime c)
         = Returns (referred w) (runtime c) [AtomicLoad H]
       ∧ regularWeakReferenceImplBaseObjectUnsafe H (runtime c)
         = Returns (referred w) (runtime c) [PlainLoad H]
       ∧ ∃ σ', disposeRegularWeakReferenceImpl H (runtime c)
               = Returns () σ' [PlainStore H nullptr].
Proof.
  intros Hrun Hin. apply reachable_consistent in Hrun as [_ Hhist (Hcached & _ & Hret)].
  destruct (Hret _ _ _ Hin) as [Hnn Hd]. specialize (Hcached _ _ Hd Hnn).
  simpl in Hcached. specialize (Hhist H). unfold createdFor in Hcached.
  unfold derefRegularWeakReferenceImpl, ReadHeapRefAtomic,
    regularWeakReferenceImplBaseObjectUnsafe, disposeRegularWeakReferenceImpl,
    asRegularWeakReferenceImpl.
  destruct (heap (runtime c) !! H) as [[|w]|].
  - destruct Hhist as [Hst _]. by rewrite Hst in Hcached.
  - exists w. split_and!; eauto.
  - destruct Hhist as [Hst _]. by rewrite Hst in Hcached.
Qed.

(** X8. In every execution of the system, a handle is the weak reference of
    one object only: two calls that returned the same handle were calls for
    the same object. *)
Theorem handle_belongs_to_one_object (objects : gmap N ObjHeader)
    (threads : gmap nat ThreadData) (trace : list Event) (c : Config)
    (t1 t2 : ThreadId) (O1 O2 H : ptr) :
  run allocate (initialConfig objects threads) trace = Some c →
  evReturn t1 O1 H ∈ trace →
  evReturn t2 O2 H ∈ trace →
  O1 = O2.
Proof.
  intros Hrun H1 H2. apply reachable_consistent in Hrun as [_ _ (Hcached & _ & Hret)].
  destruct (Hret _ _ _ H1) as [Hnn Hd1]. destruct (Hret _ _ _ H2) as [_ Hd2].
  pose proof (Hcached _ _ Hd1 Hnn) as Hc1. pose proof (Hcached _ _ Hd2 Hnn) as Hc2.
  unfold createdFor in *. simpl in *. congruence.
Qed.

(** X9. From any configuration on, a handle that is cached for an object
    stays cached for it, whatever runs: the operations fill an empty cache
    and never overwrite or empty a full one. *)
Theorem cached_handle_never_changes (c c' : Config) (trace : list Event) (O : ptr)
    (d : ExtraObjectData) :
  run allocate c trace = Some c' →
  extraObjects (runtime c) !! O = Some d →
  regularWeakReferenceImpl d ≠ nullptr →
  extraObjects (runtime c') !! O = Some d.
Proof.
  intros Hrun Hd Hnn. destruct (run_effect _ _ _ Hrun) as [_ Hgrow].
  destruct (Hgrow _ _ Hd) as (d' & Hd' & Heq). by rewrite Hd', (Heq Hnn).
Qed.

(** X10. From any configuration on, no object leaves the heap and none is
    overwritten: an ordinary object stays as it is, and a weak-reference
    object keeps its header and its [referred] field, unless the field was
    cleared. *)
Theorem heap_objects_persist (c c' : Config) (trace : list Event) (a : ptr)
    (x : HeapObject) :
  run allocate c trace = Some c' →
  heap (runtime c) !! a = Some x →
  ∃ x', heap (runtime c') !! a = Some x' ∧ objectKept x x'.
Proof. intros Hrun Hx. destruct (run_effect _ _ _ Hrun) as [Hheap _]. eauto. Qed.

End Concurrent.

(** *** The collected system *)

Lemma disposals_present (a : ptr) (trace : list Event) :
  evDispose a ∈ trace → disposals a trace ≠ 0.
Proof.
  unfold disposals. induction trace as [|e trace IH]; intros Hin.
  - by apply elem_of_nil in Hin.
  - apply elem_of_cons in Hin as [<-|Hin].
    + by rewrite filter_cons_True.
    + rewrite filter_cons. case_decide; [done|by apply IH].
Qed.

Lemma elem_of_handlesMadeFor (h object : ptr) (log : list Access) :
  h ∈ handlesMadeFor object log ↔ PlainStore h object ∈ log.
Proof.
  unfold handlesMadeFor. rewrite list_elem_of_omap. split.
  - intros (x & Hx & Hsome). destruct x as [| |h' v]; try done.
    case_decide; [|done]. by simplify_eq.
  - intros Hin. exists (PlainStore h object). split; [done|]. by rewrite decide_True.
Qed.

Lemma storesTo_head_elem_of (a : ptr) (log rest : list Access) (x : Access) :
  storesTo a log = x :: rest → x ∈ log.
Proof.
  intros Hst. assert (x ∈ storesTo a log) as Hin by (rewrite Hst; left).
  unfold storesTo in Hin. by apply list_elem_of_filter in Hin as [_ ?].
Qed.

(** What the invariant of the system says of one handle. *)
Lemma consistent_store_history (trace : list Event) (c : Config) (H : ptr)
    (w : RegularWeakReferenceImpl) :
  Consistent trace c →
  asRegularWeakReferenceImpl (runtime c) H = Some w →
  ∃ target, target ≠ nullptr
    ∧ is_Some (heap (runtime c) !! target)
    ∧ storesTo H (accesses c)
      = PlainStore H target :: replicate (disposals H trace) (PlainStore H nullptr)
    ∧ referred w = (if decide (disposals H trace = 0) then target else nullptr).
Proof.
  intros [_ Hhist _] Hw. specialize (Hhist H). unfold asRegularWeakReferenceImpl in Hw.
  destruct (heap (runtime c) !! H) as [[|w']|]; try done.
  injection Hw as ->. destruct Hhist as (o & Ho & _ & Hob & Hst & Href). eauto.
Qed.

Section Collector.

Variable allocate : Runtime → ptr.
Hypothesis allocate_fresh : ∀ σ, allocate σ ≠ nullptr ∧ heap σ !! allocate σ = None.

Lemma createStep_stores (self : ThreadId) (point next : CreatePoint)
    (σ σ' : Runtime) (log : list Access) (h v : ptr) :
  createStep allocate self point σ = Returns next σ' log →
  PlainStore h v ∈ log → v = pointObject point.
Proof.
  destruct point as [o|o|o e|o e|o e w|o res]; simpl; unfold_op.
  - destruct (threadRegistry σ !! self); [|done]. case_decide; [|done].
    intros [= _ _ <-] Hin. by apply elem_of_nil in Hin.
  - destruct (heap σ !! o); [|done].
    destruct (extraObjects σ !! o); intros [= _ _ <-] Hin; by apply elem_of_nil in Hin.
  - destruct (extraObjects σ !! e); [|done].
    intros [= _ _ <-] Hin. by apply elem_of_nil in Hin.
  - intros [= _ _ <-] Hin. apply list_elem_of_singleton in Hin. congruence.
  - destruct (extraObjects σ !! e); [|done].
    case_decide; intros [= _ _ <-] Hin; by apply elem_of_nil in Hin.
  - intros [= _ _ <-] Hin. by apply elem_of_nil in Hin.
Qed.

(** The threads and the stores of one step: a thread is inside the function
    for the object it was inside for, or has just entered; a store is a
    store of [nullptr] or the store of the constructor, with the object of
    the thread that runs it. *)
Lemma step_threads_and_stores (c c' : Config) (e : Event) :
  step allocate c e = Some c' →
  (∀ t point', running c' !! t = Some point' →
     (∃ point, running c !! t = Some point ∧ pointObject point = pointObject point')
     ∨ e = evCall t (pointObject point'))
  ∧ ∃ log, accesses c' = accesses c ++ log
      ∧ ∀ h v, PlainStore h v ∈ log →
          v = nullptr ∨ ∃ t point, running c !! t = Some point ∧ pointObject point = v.
Proof.
  intros Hstep. destruct c as [σ r acc]. simpl in *.
  assert (Hsame : ∀ t point', r !! t = Some point' →
            (∃ point, r !! t = Some point ∧ pointObject point = pointObject point')
            ∨ e = evCall t (pointObject point')) by eauto.
  assert (Hnone : ∀ h v, PlainStore h v ∈ ([] : list Access) →
            v = nullptr ∨ ∃ t point, r !! t = Some point ∧ pointObject point = v).
  { intros h v Hin. by apply elem_of_nil in Hin. }
  assert (Hload : ∀ x h v, (∀ a b, x ≠ PlainStore a b) → PlainStore h v ∈ [x] →
            v = nullptr ∨ ∃ t point, r !! t = Some point ∧ pointObject point = v).
  { intros x h v Hx Hin. apply list_elem_of_singleton in Hin. by destruct (Hx h v). }
  destruct e as [t o|t|t o h|a|a res|a res|hd|t s]; simpl in Hstep.
  - destruct (r !! t) eqn:Hr; [done|]. injection Hstep as <-. simpl. split.
    + intros t' p'. destruct (decide (t = t')) as [<-|Hne].
      * rewrite lookup_insert_eq. intros [= <-]. by right.
      * rewrite lookup_insert_ne by done. eauto.
    + exists []. by rewrite app_nil_r.
  - destruct (r !! t) as [p|] eqn:Hr; [|done].
    assert (Hp : ∃ next σ' log, createStep allocate t p σ = Returns next σ' log
                   ∧ c' = mkConfig σ' (<[t := next]> r) (acc ++ log)).
    { unfold perform in Hstep. simpl in Hstep.
      destruct p; try done;
        (destruct (createStep allocate t _ σ) as [next σ' log| |] eqn:Hcs; [|done..]);
        injection Hstep as <-; eauto. }
    destruct Hp as (next & σ' & log & Hcs & ->). simpl. split.
    + intros t' p'. destruct (decide (t = t')) as [<-|Hne].
      * rewrite lookup_insert_eq. intros [= <-]. left. exists p. split; [done|].
        symmetry. by eapply createStep_pointObject.
      * rewrite lookup_insert_ne by done. eauto.
    + exists log. split; [done|]. intros h v Hin. right. exists t, p. split; [done|].
      symmetry. by eapply createStep_stores.
  - destruct (r !! t) as [[| | | | |o' res]|] eqn:Hr; try done.
    case_decide; [|done]. injection Hstep as <-. simpl. split.
    + intros t' p' Ht'. apply lookup_delete_Some in Ht' as [_ Ht']. eauto.
    + exists []. by rewrite app_nil_r.
  - unfold perform, disposeRegularWeakReferenceImpl, asRegularWeakReferenceImpl in Hstep.
    simpl in Hstep. destruct (heap σ !! a) as [[|w']|]; try done.
    injection Hstep as <-. simpl. split; [done|]. eexists. split; [done|].
    intros h v Hin. apply list_elem_of_singleton in Hin. left. congruence.
  - unfold perform, derefRegularWeakReferenceImpl, ReadHeapRefAtomic in Hstep.
    simpl in Hstep. destruct (heap σ !! a) as [[|w']|]; try done.
    case_decide; [|done]. injection Hstep as <-. simpl. split; [done|].
    eexists. split; [done|]. intros h v. by apply Hload.
  - unfold perform, regularWeakReferenceImplBaseObjectUnsafe, asRegularWeakReferenceImpl
      in Hstep.
    simpl in Hstep. destruct (heap σ !! a) as [[|w']|]; try done.
    case_decide; [|done]. injection Hstep as <-. simpl. split; [done|].
    eexists. split; [done|]. intros h v. by apply Hload.
  - unfold perform, allocateOrdinaryObject in Hstep. simpl in Hstep.
    injection Hstep as <-. simpl. split; [done|]. exists []. done.
  - destruct (r !! t); [done|].
    unfold perform, switchThreadState in Hstep. simpl in Hstep. injection Hstep as <-.
    simpl. split; [done|]. exists []. done.
Qed.

Lemma stepCollected_ok (g g' : Collected) (ce : CollectorEvent) :
  Consistent (history g) (system g) → CollectedOk g →
  stepCollected allocate g ce = Some g' →
  Consistent (history g') (system g') ∧ CollectedOk g'.
Proof.
  intros HI (Hheap & Hthreads & Hmade) Hstep. destruct ce as [e|o]; simpl in Hstep.
  - case_decide as Hlive; [|done].
    destruct (step allocate (system g) e) as [c'|] eqn:Hsys; [|done].
    injection Hstep as <-. simpl. split; [by eapply step_consistent|].
    destruct (step_effect _ allocate_fresh _ _ _ Hsys) as [Hpers _].
    destruct (step_threads_and_stores _ _ _ Hsys) as [Hrun (log & Hlog & Hstores)].
    assert (Hnull : nullptr ∉ reclaimed g).
    { intros Hin. destruct (Hheap _ Hin) as [x Hx].
      destruct HI as [[Hn _] _ _]. congruence. }
    split_and!.
    + intros o Ho. simpl in *. destruct (Hheap _ Ho) as [x Hx].
      destruct (Hpers _ _ Hx) as (x' & Hx' & _). eauto.
    + intros t p' Hp'. simpl in *. destruct (Hrun _ _ Hp') as [(p & Hp & <-) | ->]; [eauto|].
      exact Hlive.
    + intros h o Hin Ho. simpl in Hin, Ho. rewrite Hlog in Hin.
      apply elem_of_app in Hin as [Hin|Hin].
      * destruct (Hmade _ _ Hin Ho) as [?|Hd]; [by left|].
        right. apply elem_of_app. by left.
      * destruct (Hstores _ _ Hin) as [-> | (t & p & Hp & <-)]; [done|].
        by destruct (Hthreads _ _ Hp).
  - case_decide as Hmay; [|done]. injection Hstep as <-. simpl. split; [done|].
    destruct Hmay as ([Hin Hnot] & Hidle & Hdisposed). split_and!.
    + intros o' Ho'. apply elem_of_union in Ho' as [Ho'|Ho']; [|eauto].
      apply elem_of_singleton in Ho'. by subst.
    + intros t p Hp Hrec. apply elem_of_union in Hrec as [Hrec|Hrec].
      * apply elem_of_singleton in Hrec. by apply (Hidle _ _ Hp).
      * by apply (Hthreads _ _ Hp).
    + intros h o' Hst Ho'. apply elem_of_union in Ho' as [Ho'|Ho'].
      * apply elem_of_singleton in Ho'. subst o'.
        apply elem_of_handlesMadeFor in Hst.
        rewrite Forall_forall in Hdisposed. destruct (Hdisposed _ Hst) as [?|?].
        -- left. apply elem_of_union. by right.
        -- by right.
      * destruct (Hmade _ _ Hst Ho') as [?|?]; [|by right].
        left. apply elem_of_union. by right.
Qed.

Lemma runCollected_ok (trace : list CollectorEvent) (g g' : Collected) :
  Consistent (history g) (system g) → CollectedOk g →
  runCollected allocate g trace = Some g' →
  Consistent (history g') (system g') ∧ CollectedOk g'.
Proof.
  revert g. induction trace as [|ce trace IH]; intros g HI Hok Hrun; simpl in Hrun.
  - by injection Hrun as <-.
  - destruct (stepCollected allocate g ce) as [g1|] eqn:Hstep; [|done].
    destruct (stepCollected_ok _ _ _ HI Hok Hstep) as [HI1 Hok1]. eauto.
Qed.

Lemma initialCollected_ok (objects : gmap N ObjHeader) (threads : gmap nat ThreadData) :
  CollectedOk (initialCollected objects threads).
Proof.
  split_and!; simpl.
  - intros o Ho. by apply not_elem_of_empty in Ho.
  - intros t p Hp. by rewrite lookup_empty in Hp.
  - intros h o Hin. by apply elem_of_nil in Hin.
Qed.

(** An execution of the system is an execution of the collected system in
    which the collector reclaims nothing. *)
Lemma run_as_collected (trace : list Event) (c c' : Config) (past : list Event) :
  run allocate c trace = Some c' →
  runCollected allocate (mkCollected c past ∅) (evSystem <$> trace)
  = Some (mkCollected c' (past ++ trace) ∅).
Proof.
  revert c past. induction trace as [|e trace IH]; intros c past Hrun; simpl in Hrun.
  - injection Hrun as <-. by rewrite app_nil_r.
  - destruct (step allocate c e) as [c1|] eqn:Hstep; [|done].
    cbn [fmap list_fmap runCollected stepCollected system reclaimed history].
    rewrite decide_True, Hstep.
    + rewrite (IH _ _ Hrun). by rewrite <- (assoc_L (++)).
    + destruct e; simpl; try done; apply not_elem_of_empty.
Qed.

(** C8, as amended. In every execution of the system and of the collector,
    the [referred] field of a live handle is [nullptr] or the address of a
    live object; it was stored to once by the constructor of the handle, with
    a target that is not [nullptr], and once by every disposal of the handle,
    with [nullptr], and by nothing else; it holds the target until the first
    disposal and [nullptr] from then on; dereferencing and the unsafe read
    return it with a single load and leave the runtime state as it is. *)
Theorem referred_store_history (objects : gmap N ObjHeader) (threads : gmap nat ThreadData)
    (trace : list CollectorEvent) (g : Collected) (H : ptr)
    (w : RegularWeakReferenceImpl) :
  runCollected allocate (initialCollected objects threads) trace = Some g →
  H ∉ reclaimed g →
  asRegularWeakReferenceImpl (runtime (system g)) H = Some w →
  (referred w = nullptr ∨ live g (referred w))
  ∧ (∃ target, target ≠ nullptr
       ∧ storesTo H (accesses (system g))
         = PlainStore H target
           :: replicate (disposals H (history g)) (PlainStore H nullptr)
       ∧ referred w = (if decide (disposals H (history g) = 0) then target else nullptr))
  ∧ derefRegularWeakReferenceImpl H (runtime (system g))
    = Returns (referred w) (runtime (system g)) [AtomicLoad H]
  ∧ regularWeakReferenceImplBaseObjectUnsafe H (runtime (system g))
    = Returns (referred w) (runtime (system g)) [PlainLoad H].
Proof.
  intros Hrun Hlive Hw.
  apply runCollected_ok in Hrun as [HI (_ & _ & Hmade)];
    [|apply initial_consistent|apply initialCollected_ok].
  destruct (consistent_store_history _ _ _ _ HI Hw) as (o & Ho & Hob & Hst & Href).
  split_and!.
  - rewrite Href. case_decide as Hzero; [|by left]. right. split; [done|].
    intros Hdead. pose proof (storesTo_head_elem_of _ _ _ _ Hst) as Hin.
    destruct (Hmade _ _ Hin Hdead) as [?|Hd]; [done|].
    by apply disposals_present in Hd.
  - exists o. done.
  - unfold derefRegularWeakReferenceImpl, ReadHeapRefAtomic.
    unfold asRegularWeakReferenceImpl in Hw.
    by destruct (heap (runtime (system g)) !! H) as [[|w']|]; simplify_eq.
  - unfold regularWeakReferenceImplBaseObjectUnsafe. by rewrite Hw.
Qed.

End Collector.

(** X3. Disposals commute: disposing two handles in either order ends in the
    same runtime state. *)
Theorem dispose_commutes (σ : Runtime) (H1 H2 : ptr) (w1 w2 : RegularWeakReferenceImpl) :
  asRegularWeakReferenceImpl σ H1 = Some w1 →
  asRegularWeakReferenceImpl σ H2 = Some w2 →
  ∃ σ',
    (disposeRegularWeakReferenceImpl H1;; disposeRegularWeakReferenceImpl H2) σ
    = Returns () σ' [PlainStore H1 nullptr; PlainStore H2 nullptr]
    ∧ (disposeRegularWeakReferenceImpl H2;; disposeRegularWeakReferenceImpl H1) σ
      = Returns () σ' [PlainStore H2 nullptr; PlainStore H1 nullptr]
    ∧ cleared σ' H1 ∧ cleared σ' H2.
Proof.
  unfold asRegularWeakReferenceImpl. intros Hw1 Hw2.
  destruct (heap σ !! H1) as [[|w1']|] eqn:E1; try done. injection Hw1 as ->.
  destruct (heap σ !! H2) as [[|w2']|] eqn:E2; try done. injection Hw2 as ->.
  unfold mbind, Op_bind, disposeRegularWeakReferenceImpl, asRegularWeakReferenceImpl, cleared.
  rewrite E1, E2. cbn [heap extraObjects threadRegistry].
  destruct (decide (H1 = H2)) as [->|Hne].
  - assert (w1 = w2) as -> by congruence.
    rewrite lookup_insert_eq. cbn [header]. eexists. split; [done|]. split; [done|].
    simpl. rewrite lookup_insert_eq. split; eauto.
  - rewrite !lookup_insert_ne by done. rewrite E1, E2. cbn [header app].
    eexists. split; [done|]. split.
    + by rewrite insert_insert_ne.
    + simpl. rewrite lookup_insert_ne, !lookup_insert_eq by done. split; eauto.
Qed.

(** ** The statements at work on the demo system *)

Lemma dispose_clears_and_is_idempotent_witness :
  asRegularWeakReferenceImpl demoCreated 8
  = Some (mkRegularWeakReferenceImpl (mkObjHeader theRegularWeakReferenceImplTypeInfo) 5)
  ∧ ∃ σ',
      disposeRegularWeakReferenceImpl 8 demoCreated = Returns () σ' [PlainStore 8 nullptr]
      ∧ referred <$> asRegularWeakReferenceImpl σ' 8 = Some nullptr
      ∧ disposeRegularWeakReferenceImpl 8 σ' = Returns () σ' [PlainStore 8 nullptr].
Proof.
  assert (Hw : asRegularWeakReferenceImpl demoCreated 8
               = Some (mkRegularWeakReferenceImpl
                         (mkObjHeader theRegularWeakReferenceImplTypeInfo) 5)).
  { vm_compute. reflexivity. }
  split; [exact Hw|]. exact (dispose_clears_and_is_idempotent demoCreated 8 _ Hw).
Defined.

Lemma dispose_frame_witness :
  disposeRegularWeakReferenceImpl 8 demoCreated
  = Returns () demoDisposed [PlainStore 8 nullptr]
  ∧ extraObjects demoDisposed = extraObjects demoCreated
  ∧ heap demoDisposed !! 5%N = heap demoCreated !! 5%N.
Proof.
  assert (Hd : disposeRegularWeakReferenceImpl 8 demoCreated
               = Returns () demoDisposed [PlainStore 8 nullptr]).
  { vm_compute. reflexivity. }
  destruct (dispose_frame demoCreated demoDisposed 8 _ Hd) as (_ & Hheap & _ & Hextra & _).
  split; [exact Hd|]. split; [exact Hextra|]. apply Hheap. discriminate.
Defined.

Lemma create_aborts_iff_not_runnable_witness :
  threadRegistry (runtime demoConfig) !! 3 = Some (mkThreadData kNative)
  ∧ (createRegularWeakReferenceImpl bumpAllocate 3 5 (runtime demoConfig) = Aborted
     ↔ kNative ≠ kRunnable).
Proof.
  assert (Ht : threadRegistry (runtime demoConfig) !! 3 = Some (mkThreadData kNative)).
  { vm_compute. reflexivity. }
  split; [exact Ht|].
  exact (create_aborts_iff_not_runnable bumpAllocate (runtime demoConfig) 3 _ 5 Ht).
Defined.

Lemma create_fast_path_witness :
  extraObjects demoCreated !! 5%N = Some (mkExtraObjectData 8)
  ∧ createRegularWeakReferenceImpl bumpAllocate 2 5 demoCreated = Returns 8%N demoCreated [].
Proof.
  assert (Hd : extraObjects demoCreated !! 5%N = Some (mkExtraObjectData 8)).
  { vm_compute. reflexivity. }
  split; [exact Hd|].
  apply (create_fast_path bumpAllocate demoCreated 2 (mkThreadData kRunnable) 5
           (mkExtraObjectData 8)).
  - vm_compute. reflexivity.
  - reflexivity.
  - vm_compute. eexists. reflexivity.
  - exact Hd.
  - discriminate.
Defined.

Lemma create_slow_path_first_writer_wins_witness :
  (* the race is lost: thread 1 allocates the candidate at address 9 while the
     handle at address 8 is cached, and returns 8 *)
  (extraObjects (runtime (demoAfter (demoLostRace ++ [evStep 1]))) !! 5%N
   = Some (mkExtraObjectData 8)
   ∧ bumpAllocate (runtime (demoAfter demoLostRace)) = 9%N
   ∧ createStep bumpAllocate 1 (atGetOrSet 5 5 9)
       (runtime (demoAfter (demoLostRace ++ [evStep 1])))
     = Returns (atReturn 5 8) (runtime (demoAfter (demoLostRace ++ [evStep 1]))) [])
  (* the slot is empty: thread 1 allocates the candidate at address 8,
     publishes it and returns it *)
  ∧ (extraObjects (runtime (demoAfter (demoBeforeMake ++ [evStep 1]))) !! 5%N
     = Some (mkExtraObjectData nullptr)
     ∧ bumpAllocate (runtime (demoAfter demoBeforeMake)) = 8%N
     ∧ ∃ σ3,
         createStep bumpAllocate 1 (atGetOrSet 5 5 8)
           (runtime (demoAfter (demoBeforeMake ++ [evStep 1])))
         = Returns (atReturn 5 8) σ3 []
         ∧ extraObjects σ3 !! 5%N = Some (mkExtraObjectData 8)).
Proof.
  assert (Hfull : extraObjects (runtime (demoAfter (demoLostRace ++ [evStep 1]))) !! 5%N
                  = Some (mkExtraObjectData 8)).
  { vm_compute. reflexivity. }
  assert (Hempty : extraObjects (runtime (demoAfter (demoBeforeMake ++ [evStep 1]))) !! 5%N
                   = Some (mkExtraObjectData nullptr)).
  { vm_compute. reflexivity. }
  assert (H9 : bumpAllocate (runtime (demoAfter demoLostRace)) = 9%N).
  { vm_compute. reflexivity. }
  assert (H8 : bumpAllocate (runtime (demoAfter demoBeforeMake)) = 8%N).
  { vm_compute. reflexivity. }
  split.
  - split; [exact Hfull|]. split; [exact H9|].
    destruct (create_slow_path_first_writer_wins bumpAllocate
                (runtime (demoAfter demoLostRace))
                (runtime (demoAfter (demoLostRace ++ [evStep 1]))) 1 5 5 _ Hfull)
      as (_ & (h & σ3 & Hstep & _ & _ & _ & _ & Hlost) & _).
    destruct Hlost as [-> ->]; [discriminate|].
    rewrite H9 in Hstep. exact Hstep.
  - split; [exact Hempty|]. split; [exact H8|].
    destruct (create_slow_path_first_writer_wins bumpAllocate
                (runtime (demoAfter demoBeforeMake))
                (runtime (demoAfter (demoBeforeMake ++ [evStep 1]))) 1 5 5 _ Hempty)
      as (_ & (h & σ3 & Hstep & _ & Hcached & _ & Hwon & _) & _).
    rewrite (Hwon eq_refl), H8 in Hstep, Hcached.
    exists σ3. split; [exact Hstep|exact Hcached].
Defined.

Lemma deref_after_dispose_is_empty_witness :
  step bumpAllocate (demoAfter demoCreate) (evDispose 8)
  = Some (demoAfter (demoCreate ++ [evDispose 8%N]))
  ∧ run bumpAllocate (demoAfter (demoCreate ++ [evDispose 8%N])) demoAfterDispose
    = Some (demoAfter (demoCreate ++ [evDispose 8%N] ++ demoAfterDispose))
  ∧ derefRegularWeakReferenceImpl 8
      (runtime (demoAfter (demoCreate ++ [evDispose 8%N] ++ demoAfterDispose)))
    = Returns nullptr
        (runtime (demoAfter (demoCreate ++ [evDispose 8%N] ++ demoAfterDispose)))
        [AtomicLoad 8].
Proof.
  assert (H1 : step bumpAllocate (demoAfter demoCreate) (evDispose 8)
               = Some (demoAfter (demoCreate ++ [evDispose 8%N]))).
  { vm_compute. reflexivity. }
  assert (H2 : run bumpAllocate (demoAfter (demoCreate ++ [evDispose 8%N])) demoAfterDispose
               = Some (demoAfter (demoCreate ++ [evDispose 8%N] ++ demoAfterDispose))).
  { vm_compute. reflexivity. }
  split; [exact H1|]. split; [exact H2|].
  exact (deref_after_dispose_is_empty bumpAllocate bumpAllocate_fresh _ _ _ _ 8 H1 H2).
Defined.

Lemma create_returns_one_handle_witness :
  run bumpAllocate (initialConfig demoObjects demoThreads) demoRace = Some (demoAfter demoRace)
  ∧ 8%N = 8%N ∧ 8%N ≠ nullptr
  ∧ extraObjects (runtime (demoAfter demoRace)) !! 5%N = Some (mkExtraObjectData 8).
Proof.
  assert (Hrun : run bumpAllocate (initialConfig demoObjects demoThreads) demoRace
                 = Some (demoAfter demoRace)).
  { vm_compute. reflexivity. }
  split; [exact Hrun|].
  apply (create_returns_one_handle bumpAllocate bumpAllocate_fresh demoObjects demoThreads
           demoRace (demoAfter demoRace) 1 2 5 8 8 Hrun).
  - compute_done.
  - compute_done.
Defined.

Lemma deref_before_dispose_is_target_witness :
  run bumpAllocate (initialConfig demoObjects demoThreads) demoRace = Some (demoAfter demoRace)
  ∧ 5%N ≠ nullptr
  ∧ is_Some (heap (runtime (demoAfter demoRace)) !! 5%N)
  ∧ derefRegularWeakReferenceImpl 8 (runtime (demoAfter demoRace))
    = Returns 5%N (runtime (demoAfter demoRace)) [AtomicLoad 8].
Proof.
  assert (Hrun : run bumpAllocate (initialConfig demoObjects demoThreads) demoRace
                 = Some (demoAfter demoRace)).
  { vm_compute. reflexivity. }
  split; [exact Hrun|].
  apply (deref_before_dispose_is_target bumpAllocate bumpAllocate_fresh demoObjects
           demoThreads demoRace (demoAfter demoRace) 1 5 8 Hrun).
  - compute_done.
  - compute_done.
Defined.

Lemma referred_store_history_witness :
  (* after the collection: the handle at address 8 is live and cleared, its
     target, object 5, is reclaimed *)
  (runCollected bumpAllocate (initialCollected demoObjects demoThreads) demoCollection
   = Some demoCollected
   ∧ (8%N ∉ reclaimed demoCollected)
   ∧ (5%N ∈ reclaimed demoCollected)
   ∧ (nullptr = nullptr ∨ live demoCollected nullptr)
   ∧ ∃ target, target ≠ nullptr
       ∧ storesTo 8 (accesses (system demoCollected))
         = PlainStore 8 target
           :: replicate (disposals 8 (history demoCollected)) (PlainStore 8 nullptr)
       ∧ nullptr
         = (if decide (disposals 8 (history demoCollected) = 0) then target else nullptr))
  (* before it: the handle refers to object 5, which is live *)
  ∧ (runCollected bumpAllocate (initialCollected demoObjects demoThreads)
       (evSystem <$> demoRace)
     = Some demoUncollected
     ∧ (5%N = nullptr ∨ live demoUncollected 5)
     ∧ derefRegularWeakReferenceImpl 8 (runtime (system demoUncollected))
       = Returns 5%N (runtime (system demoUncollected)) [AtomicLoad 8]).
Proof.
  split.
  - assert (Hrun : runCollected bumpAllocate (initialCollected demoObjects demoThreads)
                     demoCollection = Some demoCollected).
    { vm_compute. reflexivity. }
    assert (Hlive : 8%N ∉ reclaimed demoCollected) by compute_done.
    assert (Hdead : 5%N ∈ reclaimed demoCollected) by compute_done.
    assert (Hw : asRegularWeakReferenceImpl (runtime (system demoCollected)) 8
                 = Some (mkRegularWeakReferenceImpl
                           (mkObjHeader theRegularWeakReferenceImplTypeInfo) nullptr)).
    { vm_compute. reflexivity. }
    split; [exact Hrun|]. split; [exact Hlive|]. split; [exact Hdead|].
    destruct (referred_store_history bumpAllocate bumpAllocate_fresh demoObjects
                demoThreads demoCollection _ 8 _ Hrun Hlive Hw) as (Hfirst & Hsecond & _).
    split; [exact Hfirst|exact Hsecond].
  - assert (Hrun : runCollected bumpAllocate (initialCollected demoObjects demoThreads)
                     (evSystem <$> demoRace) = Some demoUncollected).
    { vm_compute. reflexivity. }
    assert (Hlive : 8%N ∉ reclaimed demoUncollected) by compute_done.
    assert (Hw : asRegularWeakReferenceImpl (runtime (system demoUncollected)) 8
                 = Some (mkRegularWeakReferenceImpl
                           (mkObjHeader theRegularWeakReferenceImplTypeInfo) 5)).
    { vm_compute. reflexivity. }
    split; [exact Hrun|].
    destruct (referred_store_history bumpAllocate bumpAllocate_fresh demoObjects
                demoThreads (evSystem <$> demoRace) _ 8 _ Hrun Hlive Hw)
      as (Hfirst & _ & Hderef & _).
    split; [exact Hfirst|exact Hderef].
Defined.

(** C8, as stated, fails. The [referred] field of the handle at address 8 is
    stored to three times when the handle is disposed twice: the count "once by the constructor and
    at most once by a disposal" does not hold of the code. *)
Lemma referred_stored_by_every_dispose :
  run bumpAllocate demoConfig demoDisposeTwice = Some (demoAfter demoDisposeTwice)
  ∧ storesTo 8 (accesses (demoAfter demoDisposeTwice))
    = [PlainStore 8 5; PlainStore 8 nullptr; PlainStore 8 nullptr]
  ∧ ¬ storedOnceThenClearedAtMostOnce (accesses (demoAfter demoDisposeTwice)) 8.
Proof.
  assert (Hst : storesTo 8 (accesses (demoAfter demoDisposeTwice))
                = [PlainStore 8 5; PlainStore 8 nullptr; PlainStore 8 nullptr]).
  { vm_compute. reflexivity. }
  split; [vm_compute; reflexivity|]. split; [exact Hst|].
  intros (target & _ & [H|H]); rewrite Hst in H; discriminate.
Qed.

Lemma base_object_unsafe_after_dispose_is_null_witness :
  step bumpAllocate (demoAfter demoCreate) (evDispose 8)
  = Some (demoAfter (demoCreate ++ [evDispose 8%N]))
  ∧ run bumpAllocate (demoAfter (demoCreate ++ [evDispose 8%N])) demoAfterDispose
    = Some (demoAfter (demoCreate ++ [evDispose 8%N] ++ demoAfterDispose))
  ∧ regularWeakReferenceImplBaseObjectUnsafe 8
      (runtime (demoAfter (demoCreate ++ [evDispose 8%N] ++ demoAfterDispose)))
    = Returns nullptr
        (runtime (demoAfter (demoCreate ++ [evDispose 8%N] ++ demoAfterDispose)))
        [PlainLoad 8].
Proof.
  assert (H1 : step bumpAllocate (demoAfter demoCreate) (evDispose 8)
               = Some (demoAfter (demoCreate ++ [evDispose 8%N]))).
  { vm_compute. reflexivity. }
  assert (H2 : run bumpAllocate (demoAfter (demoCreate ++ [evDispose 8%N])) demoAfterDispose
               = Some (demoAfter (demoCreate ++ [evDispose 8%N] ++ demoAfterDispose))).
  { vm_compute. reflexivity. }
  split; [exact H1|]. split; [exact H2|].
  exact (base_object_unsafe_after_dispose_is_null bumpAllocate bumpAllocate_fresh
           _ _ _ _ 8 H1 H2).
Defined.

Lemma dispose_commutes_witness :
  asRegularWeakReferenceImpl (runtime (demoAfter demoCreateTwo)) 8
  = Some (mkRegularWeakReferenceImpl (mkObjHeader theRegularWeakReferenceImplTypeInfo) 5)
  ∧ asRegularWeakReferenceImpl (runtime (demoAfter demoCreateTwo)) 9
    = Some (mkRegularWeakReferenceImpl (mkObjHeader theRegularWeakReferenceImplTypeInfo) 7)
  ∧ ∃ σ',
      (disposeRegularWeakReferenceImpl 8;; disposeRegularWeakReferenceImpl 9)
        (runtime (demoAfter demoCreateTwo))
      = Returns () σ' [PlainStore 8 nullptr; PlainStore 9 nullptr]
      ∧ (disposeRegularWeakReferenceImpl 9;; disposeRegularWeakReferenceImpl 8)
          (runtime (demoAfter demoCreateTwo))
        = Returns () σ' [PlainStore 9 nullptr; PlainStore 8 nullptr]
      ∧ cleared σ' 8 ∧ cleared σ' 9.
Proof.
  assert (H8 : asRegularWeakReferenceImpl (runtime (demoAfter demoCreateTwo)) 8
               = Some (mkRegularWeakReferenceImpl
                         (mkObjHeader theRegularWeakReferenceImplTypeInfo) 5)).
  { vm_compute. reflexivity. }
  assert (H9 : asRegularWeakReferenceImpl (runtime (demoAfter demoCreateTwo)) 9
               = Some (mkRegularWeakReferenceImpl
                         (mkObjHeader theRegularWeakReferenceImplTypeInfo) 7)).
  { vm_compute. reflexivity. }
  split; [exact H8|]. split; [exact H9|].
  exact (dispose_commutes _ 8 9 _ _ H8 H9).
Defined.

Lemma create_first_call_witness :
  threadRegistry (runtime demoConfig) !! 1 = Some (mkThreadData kRunnable)
  ∧ extraObjects (runtime demoConfig) !! 5%N = None
  ∧ ∃ h σ',
      createRegularWeakReferenceImpl bumpAllocate 1 5 (runtime demoConfig)
      = Returns h σ' [PlainStore h 5]
      ∧ h ≠ nullptr ∧ heap (runtime demoConfig) !! h = None
      ∧ asRegularWeakReferenceImpl σ' h
        = Some (mkRegularWeakReferenceImpl
                  (mkObjHeader theRegularWeakReferenceImplTypeInfo) 5)
      ∧ extraObjects σ' !! 5%N = Some (mkExtraObjectData h)
      ∧ derefRegularWeakReferenceImpl h σ' = Returns 5%N σ' [AtomicLoad h].
Proof.
  assert (Ht : threadRegistry (runtime demoConfig) !! 1 = Some (mkThreadData kRunnable)).
  { vm_compute. reflexivity. }
  assert (He : extraObjects (runtime demoConfig) !! 5%N = None).
  { vm_compute. reflexivity. }
  split; [exact Ht|]. split; [exact He|].
  apply (create_first_call bumpAllocate bumpAllocate_fresh (runtime demoConfig) 1
           (mkThreadData kRunnable) 5 Ht).
  - reflexivity.
  - vm_compute. eexists. reflexivity.
  - intros d Hd. rewrite He in Hd. discriminate.
Defined.

Lemma create_frame_witness :
  createRegularWeakReferenceImpl bumpAllocate 2 7 demoCreated
  = Returns 9%N (runtime (demoAfter demoCreateTwo)) [PlainStore 9 7]
  ∧ heap (runtime (demoAfter demoCreateTwo)) !! 8%N = heap demoCreated !! 8%N
  ∧ extraObjects (runtime (demoAfter demoCreateTwo)) !! 5%N
    = extraObjects demoCreated !! 5%N.
Proof.
  assert (Hc : createRegularWeakReferenceImpl bumpAllocate 2 7 demoCreated
               = Returns 9%N (runtime (demoAfter demoCreateTwo)) [PlainStore 9 7]).
  { vm_compute. reflexivity. }
  destruct (create_frame bumpAllocate bumpAllocate_fresh _ _ _ _ _ _ Hc)
    as (_ & Hheap & _ & Hextra & _).
  split; [exact Hc|]. split.
  - assert (H8 : heap demoCreated !! 8%N
                 = Some (WeakReferenceObject
                           (mkRegularWeakReferenceImpl
                              (mkObjHeader theRegularWeakReferenceImplTypeInfo) 5))).
    { vm_compute. reflexivity. }
    rewrite H8. exact (Hheap _ _ H8).
  - apply Hextra. discriminate.
Defined.

Lemma create_after_dispose_returns_cleared_handle_witness :
  createRegularWeakReferenceImpl bumpAllocate 1 5 (runtime demoConfig)
  = Returns 8%N demoCreated [PlainStore 8 5]
  ∧ disposeRegularWeakReferenceImpl 8 demoCreated
    = Returns () demoDisposed [PlainStore 8 nullptr]
  ∧ createRegularWeakReferenceImpl bumpAllocate 2 5 demoDisposed
    = Returns 8%N demoDisposed []
  ∧ derefRegularWeakReferenceImpl 8 demoDisposed
    = Returns nullptr demoDisposed [AtomicLoad 8].
Proof.
  assert (Hc : createRegularWeakReferenceImpl bumpAllocate 1 5 (runtime demoConfig)
               = Returns 8%N demoCreated [PlainStore 8 5]).
  { vm_compute. reflexivity. }
  assert (Hd : disposeRegularWeakReferenceImpl 8 demoCreated
               = Returns () demoDisposed [PlainStore 8 nullptr]).
  { vm_compute. reflexivity. }
  assert (Ht : threadRegistry (runtime demoConfig) !! 2 = Some (mkThreadData kRunnable)).
  { vm_compute. reflexivity. }
  split; [exact Hc|]. split; [exact Hd|].
  exact (create_after_dispose_returns_cleared_handle bumpAllocate bumpAllocate_fresh
           _ _ _ 1 2 _ 5 8 _ _ Hc Hd Ht eq_refl).
Defined.

Lemma returned_handle_is_weak_reference_witness :
  run bumpAllocate (initialConfig demoObjects demoThreads) demoRace = Some (demoAfter demoRace)
  ∧ ∃ w, asRegularWeakReferenceImpl (runtime (demoAfter demoRace)) 8 = Some w
         ∧ derefRegularWeakReferenceImpl 8 (runtime (demoAfter demoRace))
           = Returns (referred w) (runtime (demoAfter demoRace)) [AtomicLoad 8]
         ∧ regularWeakReferenceImplBaseObjectUnsafe 8 (runtime (demoAfter demoRace))
           = Returns (referred w) (runtime (demoAfter demoRace)) [PlainLoad 8]
         ∧ ∃ σ', disposeRegularWeakReferenceImpl 8 (runtime (demoAfter demoRace))
                 = Returns () σ' [PlainStore 8 nullptr].
Proof.
  assert (Hrun : run bumpAllocate (initialConfig demoObjects demoThreads) demoRace
                 = Some (demoAfter demoRace)).
  { vm_compute. reflexivity. }
  split; [exact Hrun|].
  apply (returned_handle_is_weak_reference bumpAllocate bumpAllocate_fresh demoObjects
           demoThreads demoRace (demoAfter demoRace) 1 5 8 Hrun).
  compute_done.
Defined.

Lemma handle_belongs_to_one_object_witness :
  run bumpAllocate (initialConfig demoObjects demoThreads) demoRace = Some (demoAfter demoRace)
  ∧ 5%N = 5%N.
Proof.
  assert (Hrun : run bumpAllocate (initialConfig demoObjects demoThreads) demoRace
                 = Some (demoAfter demoRace)).
  { vm_compute. reflexivity. }
  split; [exact Hrun|].
  apply (handle_belongs_to_one_object bumpAllocate bumpAllocate_fresh demoObjects
           demoThreads demoRace (demoAfter demoRace) 1 2 5 5 8 Hrun).
  - compute_done.
  - compute_done.
Defined.

Lemma cached_handle_never_changes_witness :
  run bumpAllocate (demoAfter demoCreate) ([evDispose 8%N] ++ demoAfterDispose)
  = Some (demoAfter (demoCreate ++ [evDispose 8%N] ++ demoAfterDispose))
  ∧ extraObjects (runtime (demoAfter demoCreate)) !! 5%N = Some (mkExtraObjectData 8)
  ∧ extraObjects (runtime (demoAfter (demoCreate ++ [evDispose 8%N] ++ demoAfterDispose)))
    !! 5%N = Some (mkExtraObjectData 8).
Proof.
  assert (Hrun : run bumpAllocate (demoAfter demoCreate) ([evDispose 8%N] ++ demoAfterDispose)
                 = Some (demoAfter (demoCreate ++ [evDispose 8%N] ++ demoAfterDispose))).
  { vm_compute. reflexivity. }
  assert (Hd : extraObjects (runtime (demoAfter demoCreate)) !! 5%N
               = Some (mkExtraObjectData 8)).
  { vm_compute. reflexivity. }
  split; [exact Hrun|]. split; [exact Hd|].
  apply (cached_handle_never_changes bumpAllocate bumpAllocate_fresh _ _ _ 5 _ Hrun Hd).
  discriminate.
Defined.

Lemma heap_objects_persist_witness :
  run bumpAllocate (demoAfter demoCreate) ([evDispose 8%N] ++ demoAfterDispose)
  = Some (demoAfter (demoCreate ++ [evDispose 8%N] ++ demoAfterDispose))
  ∧ heap (runtime (demoAfter demoCreate)) !! 5%N
    = Some (OrdinaryObject (mkObjHeader (otherTypeInfo 1)))
  ∧ ∃ x', heap (runtime (demoAfter (demoCreate ++ [evDispose 8%N] ++ demoAfterDispose)))
          !! 5%N = Some x'
          ∧ objectKept (OrdinaryObject (mkObjHeader (otherTypeInfo 1))) x'.
Proof.
  assert (Hrun : run bumpAllocate (demoAfter demoCreate) ([evDispose 8%N] ++ demoAfterDispose)
                 = Some (demoAfter (demoCreate ++ [evDispose 8%N] ++ demoAfterDispose))).
  { vm_compute. reflexivity. }
  assert (Hx : heap (runtime (demoAfter demoCreate)) !! 5%N
               = Some (OrdinaryObject (mkObjHeader (otherTypeInfo 1)))).
  { vm_compute. reflexivity. }
  split; [exact Hrun|]. split; [exact Hx|].
  exact (heap_objects_persist bumpAllocate bumpAllocate_fresh _ _ _ 5 _ Hrun Hx).
Defined.
